(** * Crossword CSP generator ([generate.py]): shallow embedding and properties

    The methods of [CrosswordCreator] are embedded as functions of an
    explicit domain store.  A method may return a value, raise a Python
    exception, or (for the two kinds of loop whose bound is not syntactic)
    exhaust the fuel of the model; the lemmas of section "Totality" show that
    the last outcome never occurs. *)

From Stdlib Require Import String Ascii.
From stdpp Require Import base decidable countable list gmap strings sorting.

Local Open Scope list_scope.

(** ** Data model *)

Inductive Direction := ACROSS | DOWN.

(** [Variable(i, j, direction, length)]: one slot of the grid. *)
Record variable := mkVariable {
  var_i : nat;
  var_j : nat;
  var_direction : Direction;
  var_length : nat
}.

#[global] Instance Direction_eq_dec : EqDecision Direction.
Proof. solve_decision. Defined.

#[global] Instance variable_eq_dec : EqDecision variable.
Proof. solve_decision. Defined.

Definition variable_to_tuple (v : variable) : nat * nat * bool * nat :=
  (var_i v, var_j v, match var_direction v with ACROSS => true | DOWN => false end,
   var_length v).

Definition variable_of_tuple (t : nat * nat * bool * nat) : variable :=
  let '(a, b, d, n) := t in mkVariable a b (if d then ACROSS else DOWN) n.

#[global] Instance variable_countable : Countable variable.
Proof.
  apply (inj_countable' variable_to_tuple variable_of_tuple).
  intros [a b [] n]; reflexivity.
Defined.

(** Python exceptions raised by the embedded methods. *)
Inductive exception :=
  | TypeError | KeyError | ValueError | IndexError | NotImplementedError.

(** Outcome of a call: a value, a raised exception, or the model's fuel ran
    out (never the case for the methods below, see section "Totality"). *)
Inductive result (A : Type) :=
  | Val (a : A)
  | Exn (e : exception)
  | NoFuel.
Arguments Val {A} a.
Arguments Exn {A} e.
Arguments NoFuel {A}.

(** Modelled from the spec: the [Crossword] class of [crossword.py] is not
    part of the sources.  The spec gives it an enumeration of the variables,
    a candidate word collection, a neighbor query and an overlap lookup for
    any two variables that yields a pair of offsets or "no constraint".
    The collections are given in their iteration order.  [generate.py]
    indexes a domain ([self.domains[y][0]]), so the word collection and the
    domains copied from it are Python lists.  The neighbor query is also
    called on [None] by [select_unassigned_variable]; what the absent class
    does there is the field [neighbors_None]. *)
Record Crossword := mkCrossword {
  variables : list variable;
  words : list string;
  overlaps : variable -> variable -> option (nat * nat);
  neighbors : variable -> list variable;
  neighbors_None : result (list variable)
}.

(** [self.domains]: a dict from variables to lists of words. *)
Abbreviation domains := (gmap variable (list string)).

(** An assignment: a dict from variables to words, in insertion order; a
    value may be Python's [None]. *)
Definition assignment := list (variable * option string).

(** ** The state-and-exception monad of the methods *)

Definition M (A : Type) : Type := domains -> result A * domains.

Definition ret {A} (a : A) : M A := fun s => (Val a, s).

Definition raise {A} (e : exception) : M A := fun s => (Exn e, s).

Definition out_of_fuel {A} : M A := fun s => (NoFuel, s).

Definition bind {A B} (m : M A) (k : A -> M B) : M B :=
  fun s =>
    match m s with
    | (Val a, s') => k a s'
    | (Exn e, s') => (Exn e, s')
    | (NoFuel, s') => (NoFuel, s')
    end.

Definition lift {A} (r : result A) : M A := fun s => (r, s).

Declare Scope py_scope.
Delimit Scope py_scope with py.
Notation "x <- m ;; k" := (bind m (fun x => k))
  (at level 100, m at next level, right associativity) : py_scope.
Notation "m ;;; k" := (bind m (fun _ => k))
  (at level 100, right associativity) : py_scope.
Local Open Scope py_scope.

(** ** Primitive operations on Python values *)

(** [self.domains[x]]: [KeyError] when [x] is not a key. *)
Definition get_domain (x : variable) : M (list string) :=
  fun s => match s !! x with
           | Some l => (Val l, s)
           | None => (Exn KeyError, s)
           end.

(** [l.remove(w)] on a list: deletes the first occurrence; [None] stands for
    the [ValueError] of an absent element. *)
Fixpoint remove_first (w : string) (l : list string) : option (list string) :=
  match l with
  | [] => None
  | w' :: l' =>
      if decide (w' = w) then Some l'
      else match remove_first w l' with
           | Some r => Some (w' :: r)
           | None => None
           end
  end.

(** [self.domains[x].remove(w)]: the list object stored under [x] is mutated
    in place. *)
Definition domain_remove (x : variable) (w : string) : M unit :=
  l <- get_domain x ;;
  match remove_first w l with
  | Some l' => fun s => (Val tt, <[x := l']> s)
  | None => raise ValueError
  end.

(** [w[k]] on a string with a non-negative index. *)
Definition str_index (w : string) (k : nat) : result ascii :=
  match String.get k w with
  | Some c => Val c
  | None => Exn IndexError
  end.

(** [for w in self.domains[x]: acc = body(w, acc)] where the body may mutate
    the list being iterated.  Python's list iterator keeps an index into the
    list object and reads the current contents at every step, stopping when
    the index reaches the current length.  No method rebinds or deletes
    [self.domains[x]], so the list object is the current value stored under
    [x]. *)
Fixpoint for_in_domain {A} (fuel : nat) (x : variable) (idx : nat)
    (body : string -> A -> M A) (acc : A) : M A :=
  fun s =>
    match default [] (s !! x) !! idx with
    | None => (Val acc, s)
    | Some w =>
        match fuel with
        | O => (NoFuel, s)
        | S fuel' =>
            match body w acc s with
            | (Val acc', s') => for_in_domain fuel' x (S idx) body acc' s'
            | (Exn e, s') => (Exn e, s')
            | (NoFuel, s') => (NoFuel, s')
            end
        end
    end.

(** [for a in l: acc = body(a, acc)] over a collection the body leaves
    alone. *)
Fixpoint for_in {A B} (l : list B) (body : B -> A -> M A) (acc : A) : M A :=
  match l with
  | [] => ret acc
  | b :: l' => acc' <- body b acc ;; for_in l' body acc'
  end.

(** Sequencing of pure fallible steps. *)
Definition rbind {A B} (r : result A) (k : A -> result B) : result B :=
  match r with
  | Val a => k a
  | Exn e => Exn e
  | NoFuel => NoFuel
  end.

Notation "x <~ r ;; k" := (rbind r (fun x => k))
  (at level 100, r at next level, right associativity) : py_scope.

(** Python's [None] as the value of an expression. *)
Inductive NoneType := PyNone.

(** [c.remove(y)] on the collection returned by the neighbor query: the
    method mutates its receiver and evaluates to [None]; it raises when [y]
    is not an element. *)
Definition collection_remove (c : list variable) (y : variable) : result NoneType :=
  if bool_decide (y ∈ c) then Val PyNone else Exn KeyError.

(** [for _ in n] with [n] being [None]: ['NoneType' object is not iterable]. *)
Definition iter_None {A} (n : NoneType) : result (list A) := Exn TypeError.

(** [assignment[v]]: [KeyError] when [v] has no entry. *)
Fixpoint assignment_get (a : assignment) (v : variable) : result (option string) :=
  match a with
  | [] => Exn KeyError
  | (v', w) :: a' => if decide (v' = v) then Val w else assignment_get a' v
  end.

(** [len(w)] and [w[k]] on an assignment value; [None] has neither. *)
Definition py_len (w : option string) : result nat :=
  match w with
  | Some w => Val (String.length w)
  | None => Exn TypeError
  end.

Definition py_index (w : option string) (k : nat) : result ascii :=
  match w with
  | Some w => str_index w k
  | None => Exn TypeError
  end.

(** [v in assignment]. *)
Definition in_assignment (v : variable) (a : assignment) : bool :=
  bool_decide (v ∈ map fst a).

(** [d[k] = v] on a dict from words to counts, kept in insertion order: a
    key that is present keeps its place and takes the new value. *)
Fixpoint dict_set (d : list (string * nat)) (k : string) (v : nat)
    : list (string * nat) :=
  match d with
  | [] => [(k, v)]
  | (k', v') :: d' =>
      if decide (k' = k) then (k, v) :: d' else (k', v') :: dict_set d' k v
  end.

(** [sorted(d, key=lambda val: d[val])]: the keys of the dict ordered by
    their values.  Python's sort is stable, and the stable ordering of a list
    is unique; it is computed here by insertion. *)
Fixpoint insert_by_count (e : string * nat) (l : list (string * nat))
    : list (string * nat) :=
  match l with
  | [] => [e]
  | e' :: l' =>
      if snd e <=? snd e' then e :: e' :: l'
      else e' :: insert_by_count e l'
  end.

Fixpoint sort_by_count (l : list (string * nat)) : list (string * nat) :=
  match l with
  | [] => []
  | e :: l' => insert_by_count e (sort_by_count l')
  end.

Definition sorted_keys (d : list (string * nat)) : list string :=
  map fst (sort_by_count d).

(** A grid of letters: rows of cells, a cell being [None] or a character. *)
Abbreviation grid := (list (list (option ascii))).

(** [letters[i][j] = c]: [IndexError] when the row or the column is out of
    range. *)
Definition grid_set (letters : grid) (i j : nat) (c : ascii) : result grid :=
  match letters !! i with
  | None => Exn IndexError
  | Some row =>
      if decide (j < length row)
      then Val (<[i := <[j := Some c]> row]> letters)
      else Exn IndexError
  end.

(** The cell of the [k]-th letter of the slot [v]. *)
Definition cell_row (v : variable) (k : nat) : nat :=
  var_i v + match var_direction v with DOWN => k | ACROSS => 0 end.

Definition cell_col (v : variable) (k : nat) : nat :=
  var_j v + match var_direction v with ACROSS => k | DOWN => 0 end.

(** [for k in range(len(word)): letters[i][j] = word[k]], [ks] being the
    indices still to come. *)
Fixpoint letter_loop (v : variable) (word : option string) (ks : list nat)
    (letters : grid) : result grid :=
  match ks with
  | [] => Val letters
  | k :: ks' =>
      c <~ py_index word k ;;
      letters' <~ grid_set letters (cell_row v k) (cell_col v k) c ;;
      letter_loop v word ks' letters'
  end.

(** [for variable, word in assignment.items()]. *)
Fixpoint letter_entries (a : assignment) (letters : grid) : result grid :=
  match a with
  | [] => Val letters
  | (v, word) :: a' =>
      n <~ py_len word ;;
      letters' <~ letter_loop v word (seq 0 n) letters ;;
      letter_entries a' letters'
  end.

(** [letter_grid]; [self.crossword.height] and [self.crossword.width] are
    attributes of the class that is not part of the sources and are taken as
    parameters. *)
Definition letter_grid (height width : nat) (a : assignment) : result grid :=
  letter_entries a (replicate height (replicate width None)).

Section Creator.

Variable cw : Crossword.

(** [__init__]: every variable starts with a copy of the word list. *)
Definition init_domains : domains :=
  list_to_map (map (fun var => (var, words cw)) (variables cw)).

(** ** enforce_node_consistency *)

Definition node_body (var : variable) (domain : string) (_ : unit) : M unit :=
  if negb (Nat.eqb (String.length domain) (var_length var))
  then domain_remove var domain
  else ret tt.

Definition enforce_node_consistency : M unit :=
  for_in (variables cw)
    (fun var _ =>
       l <- get_domain var ;;
       for_in_domain (length l) var 0 (node_body var) tt)
    tt.

(** ** revise *)

(** The inner loop of [revise]: scans [self.domains[y]] for a word that
    agrees with [word_x] at the overlap and is a different word; returns the
    final value of [conflict]. *)
Fixpoint conflict_scan (overlap_x overlap_y : nat) (word_x : string)
    (ly : list string) : result bool :=
  match ly with
  | [] => Val true
  | word_y :: ly' =>
      match str_index word_x overlap_x with
      | Val cx =>
          match str_index word_y overlap_y with
          | Val cy =>
              if bool_decide (cx = cy) && negb (bool_decide (word_x = word_y))
              then Val false
              else conflict_scan overlap_x overlap_y word_x ly'
          | Exn e => Exn e
          | NoFuel => NoFuel
          end
      | Exn e => Exn e
      | NoFuel => NoFuel
      end
  end.

Definition revise_body (x y : variable) (overlap_x overlap_y : nat)
    (word_x : string) (revision : bool) : M bool :=
  ly <- get_domain y ;;
  conflict <- lift (conflict_scan overlap_x overlap_y word_x ly) ;;
  if conflict : bool
  then (domain_remove x word_x ;;; ret true)
  else ret revision.

Definition revise (x y : variable) : M bool :=
  if negb (Nat.eqb (var_length x) (var_length y)) then ret false
  else
    match overlaps cw x y with
    | Some (overlap_x, overlap_y) =>
        lx <- get_domain x ;;
        for_in_domain (length lx) x 0 (revise_body x y overlap_x overlap_y) false
    | None =>
        ly <- get_domain y ;;
        if Nat.eqb (length ly) 1 then
          match ly with
          | w :: _ =>
              lx <- get_domain x ;;
              if bool_decide (w ∈ lx)
              then (domain_remove x w ;;; ret true)
              else ret false
          | [] => raise IndexError
          end
        else ret false
    end.

(** ** ac3 *)

(** The [while len(arcs) != 0] loop; [arcs.pop(0)] takes the head of the
    worklist. *)
Fixpoint ac3_loop (fuel : nat) (arcs : list (variable * variable)) : M bool :=
  match arcs with
  | [] => ret true
  | (x, y) :: arcs' =>
      match fuel with
      | O => out_of_fuel
      | S fuel' =>
          revised <- revise x y ;;
          if revised : bool then
            dx <- get_domain x ;;
            if Nat.eqb (length dx) 0 then ret false
            else
              nbrs <- lift (collection_remove (neighbors cw x) y) ;;
              items <- lift (iter_None nbrs) ;;
              ac3_loop fuel'
                (fold_left (fun arcs neighbor => arcs ++ [(x, neighbor)]) items arcs')
          else ac3_loop fuel' arcs'
      end
  end.

(** The initial worklist when [arcs] is [None]. *)
Definition all_arcs : list (variable * variable) :=
  flat_map (fun var => map (fun neighbor => (var, neighbor)) (neighbors cw var))
    (variables cw).

Definition ac3 (fuel : nat) (arcs : option (list (variable * variable))) : M bool :=
  ac3_loop fuel (match arcs with Some arcs => arcs | None => all_arcs end).

(** ** assignment_complete *)

(** [for var in assignment: if assignment[var] is None: return False]; the
    value looked up for a key is the value of its entry. *)
Fixpoint assignment_complete (a : assignment) : bool :=
  match a with
  | [] => true
  | (_, None) :: _ => false
  | (_, Some _) :: a' => assignment_complete a'
  end.

(** ** consistent *)

(** The loop over the neighbors of [var]; [Val true] when the loop ends
    without [return False].  Keys and neighbors are variables, which the
    tests [is None] never skip. *)
Fixpoint consistent_neighbors (a : assignment) (var : variable) (w : option string)
    (ns : list variable) : result bool :=
  match ns with
  | [] => Val true
  | neighbor :: ns' =>
      match overlaps cw var neighbor with
      | None => Exn TypeError
      | Some (overlap_var, overlap_neighbor) =>
          c_var <~ py_index w overlap_var ;;
          w_neighbor <~ assignment_get a neighbor ;;
          c_neighbor <~ py_index w_neighbor overlap_neighbor ;;
          if bool_decide (c_var = c_neighbor)
          then consistent_neighbors a var w ns'
          else Val false
      end
  end.

(** The loop over the entries of the assignment, [rest] being the entries
    not visited yet. *)
Fixpoint consistent_from (a rest : assignment) : result bool :=
  match rest with
  | [] => Val true
  | (var, w) :: rest' =>
      n <~ py_len w ;;
      if negb (Nat.eqb n (var_length var)) then Val false
      else
        ok <~ consistent_neighbors a var w (neighbors cw var) ;;
        if ok : bool then consistent_from a rest' else Val false
  end.

Definition consistent (a : assignment) : result bool := consistent_from a a.

(** ** select_unassigned_variable *)

(** The locals [least_domain_var], [equal_domain_var], [least_domain_count]. *)
Definition select_state : Type := option variable * option variable * nat.

Definition select_body (a : assignment) (var : variable) (st : select_state)
    : M select_state :=
  let '(least_domain_var, equal_domain_var, least_domain_count) := st in
  if in_assignment var a then ret st
  else
    l <- get_domain var ;;
    if length l <? least_domain_count then ret (Some var, None, length l)
    else if Nat.eqb (length l) least_domain_count
         then ret (least_domain_var, Some var, least_domain_count)
         else ret st.

(** [self.crossword.neighbors(v)] where [v] may be [None]. *)
Definition neighbors_of (v : option variable) : result (list variable) :=
  match v with
  | Some v => Val (neighbors cw v)
  | None => neighbors_None cw
  end.

Definition select_unassigned_variable (a : assignment) : M (option variable) :=
  st <- for_in (variables cw) (select_body a) (None, None, 0) ;;
  let '(least_domain_var, equal_domain_var, _) := st in
  match equal_domain_var with
  | Some e =>
      n_equal <- lift (neighbors_of (Some e)) ;;
      n_least <- lift (neighbors_of least_domain_var) ;;
      if length n_least <? length n_equal then ret (Some e)
      else ret least_domain_var
  | None => ret least_domain_var
  end.

(** ** order_domain_values *)

(** The innermost loop: one word of an unassigned neighbor's domain. *)
Definition count_body (var_domain : string) (overlap_var overlap_neighbor : nat)
    (neighbor_domain : string) (conflict_count : nat) : M nat :=
  c_var <- lift (str_index var_domain overlap_var) ;;
  c_neighbor <- lift (str_index neighbor_domain overlap_neighbor) ;;
  if bool_decide (c_var = c_neighbor) then ret conflict_count
  else ret (S conflict_count).

(** The loop over the neighbors of [var]: the overlap is unpacked before the
    test [neighbor in assignment]. *)
Definition neighbor_count_body (a : assignment) (var : variable)
    (var_domain : string) (neighbor : variable) (conflict_count : nat) : M nat :=
  match overlaps cw var neighbor with
  | None => raise TypeError
  | Some (overlap_var, overlap_neighbor) =>
      if in_assignment neighbor a then ret conflict_count
      else
        l <- get_domain neighbor ;;
        for_in l (count_body var_domain overlap_var overlap_neighbor)
          conflict_count
  end.

(** The loop over the domain of [var], filling the dict [rules_out]. *)
Definition rules_out_body (a : assignment) (var : variable)
    (var_domain : string) (rules_out : list (string * nat))
    : M (list (string * nat)) :=
  conflict_count <-
    for_in (neighbors cw var) (neighbor_count_body a var var_domain) 0 ;;
  ret (dict_set rules_out var_domain conflict_count).

Definition order_domain_values (var : variable) (a : assignment)
    : M (list string) :=
  l <- get_domain var ;;
  rules_out <- for_in l (rules_out_body a var) [] ;;
  ret (sorted_keys rules_out).

(** ** backtrack and solve *)

Definition backtrack (a : assignment) : M (option assignment) :=
  raise NotImplementedError.

Definition solve (fuel : nat) : M (option assignment) :=
  enforce_node_consistency ;;;
  (_ <- ac3 fuel None ;;
   backtrack []).

End Creator.

(** ** Domains only shrink *)

(** [shrunk x s s']: [s'] is [s], or [s] with the list stored under [x]
    replaced by a strictly shorter sublist of it. *)
Definition shrunk (x : variable) (s s' : domains) : Prop :=
  s' = s ∨
  ∃ l l', s !! x = Some l ∧ s' = <[x := l']> s ∧
          l' `sublist_of` l ∧ length l' < length l.

(** The loop body of a [for w in self.domains[x]] neither exhausts fuel nor
    grows the list it iterates. *)
Definition body_ok {A} (x : variable) (body : string -> A -> M A) : Prop :=
  ∀ w acc s, fst (body w acc s) ≠ NoFuel ∧ shrunk x s (snd (body w acc s)).

(** [never_grown s s']: every domain of [s'] is a sublist of the domain the
    same variable had in [s]. *)
Definition never_grown (s s' : domains) : Prop :=
  ∀ v l', s' !! v = Some l' → ∃ l, s !! v = Some l ∧ l' `sublist_of` l.

(** Equal characters at the overlap offsets. *)
Definition agree (ox oy : nat) (wx wy : string) : Prop :=
  ∃ c, String.get ox wx = Some c ∧ String.get oy wy = Some c.

(** The overlap constraint of a pair of variables on a pair of words: any
    pair of words satisfies it when no overlap is defined. *)
Definition satisfies (ov : option (nat * nat)) (wx wy : string) : Prop :=
  match ov with
  | Some (ox, oy) => agree ox oy wx wy
  | None => True
  end.

(** Every word in the domain of [x] has a word in the domain of [y] that
    satisfies the overlap constraint of [(x, y)]. *)
Definition arc_consistent (cw : Crossword) (x y : variable) (s : domains) : Prop :=
  ∀ lx wx, s !! x = Some lx → wx ∈ lx →
    ∃ ly wy, s !! y = Some ly ∧ wy ∈ ly ∧ satisfies (overlaps cw x y) wx wy.

(** The support [revise] looks for: a different word that agrees at the
    overlap. *)
Definition supported (ox oy : nat) (wx : string) (ly : list string) : Prop :=
  ∃ wy, wy ∈ ly ∧ agree ox oy wx wy ∧ wx ≠ wy.

(** [strictly_shrunk x s s']: [s'] is [s] with the list stored under [x]
    replaced by a strictly shorter sublist of it. *)
Definition strictly_shrunk (x : variable) (s s' : domains) : Prop :=
  ∃ l l', s !! x = Some l ∧ s' = <[x := l']> s ∧
          l' `sublist_of` l ∧ length l' < length l.

(** What the loop of [enforce_node_consistency] leaves of a list of distinct
    words for a variable of length [n]: a word of another length is dropped
    and the word that follows it is passed over. *)
Fixpoint node_skip (n : nat) (l : list string) : list string :=
  match l with
  | [] => []
  | w :: l' =>
      if Nat.eqb (String.length w) n then w :: node_skip n l'
      else match l' with
           | [] => []
           | w' :: l'' => w' :: node_skip n l''
           end
  end.

(** The words of [l] have the length of the variable [v]. *)
Definition node_consistent (v : variable) (l : list string) : Prop :=
  Forall (fun w => String.length w = var_length v) l.

(** [node_pruned s s']: [s'] has the keys of [s], and under each the
    domain is a sublist of the old one that holds all its words of the
    length of the variable. *)
Definition node_pruned (s s' : domains) : Prop :=
  ∀ v,
    match s !! v with
    | Some l =>
        ∃ l', s' !! v = Some l' ∧ l' `sublist_of` l ∧
              ∀ w, w ∈ l → String.length w = var_length v → w ∈ l'
    | None => s' !! v = None
    end.

(** The body of the outer loop of [enforce_node_consistency], for one
    variable. *)
Definition node_step (var : variable) (_ : unit) : M unit :=
  l <- get_domain var ;;
  for_in_domain (length l) var 0 (node_body var) tt.

(** The number of words of [ln] whose character at [on] differs from the
    character of [w] at [ov]. *)
Definition conflicts (ov on : nat) (w : string) (ln : list string) : nat :=
  length (filter (fun wn => String.get ov w ≠ String.get on wn) ln).

(** The number of values the word [w] of the domain of [var] rules out in
    the domains of the neighbors of [var] that are not assigned. *)
Definition ruled_out (cw : Crossword) (a : assignment) (s : domains)
    (var : variable) (w : string) : nat :=
  sum_list
    (map (fun n =>
            match overlaps cw var n with
            | Some (ov, on) =>
                if in_assignment n a then 0
                else conflicts ov on w (default [] (s !! n))
            | None => 0
            end)
       (neighbors cw var)).

(** The letter at position [k] of [word] is written in the cell [(i, j)]. *)
Definition writes (v : variable) (word : string) (k i j : nat) : Prop :=
  k < String.length word ∧ i = cell_row v k ∧ j = cell_col v k.

(** The slot [v] filled with [word] lies within [height] rows and [width]
    columns. *)
Definition fits (height width : nat) (v : variable) (word : string) : Prop :=
  ∀ k, k < String.length word → cell_row v k < height ∧ cell_col v k < width.

(** The dict after the loop over the domain [l], [f] giving the count of a
    word. *)
Definition fill_dict (f : string → nat) (d : list (string * nat))
    (l : list string) : list (string * nat) :=
  fold_left (fun d w => dict_set d w (f w)) l d.

(** The count of one neighbor in [ruled_out]. *)
Definition neighbor_conflicts (cw : Crossword) (a : assignment) (s : domains)
    (var : variable) (w : string) (n : variable) : nat :=
  match overlaps cw var n with
  | Some (ov, on) =>
      if in_assignment n a then 0
      else conflicts ov on w (default [] (s !! n))
  | None => 0
  end.

(** The neighbor [n] of [var] can be counted for the word [w]: its overlap
    with [var] is defined and, unless it is assigned, it has a domain and the
    overlap offsets lie within [w] and within the words of that domain. *)
Definition neighbor_ready (cw : Crossword) (a : assignment) (s : domains)
    (var : variable) (w : string) (n : variable) : Prop :=
  ∃ ov on, overlaps cw var n = Some (ov, on) ∧
    (in_assignment n a = true ∨
     ∃ ln, s !! n = Some ln ∧ ov < String.length w ∧
           ∀ wn, wn ∈ ln → on < String.length wn).

(** [letters[i][j]] read back: [None] outside the grid, otherwise the
    content of the cell. *)
Definition cell (g : grid) (i j : nat) : option (option ascii) :=
  match g !! i with
  | Some row => row !! j
  | None => None
  end.

(** A grid of [height] rows of [width] cells. *)
Definition grid_dims (height width : nat) (g : grid) : Prop :=
  length g = height ∧ Forall (fun row => length row = width) g.

(** ** Sample puzzles *)

(** Modelled from the spec: a [Crossword] built from its variables, its word
    list and the table of overlaps; the neighbor query returns the variables
    that overlap the given one, and on [None], which overlaps nothing, no
    variable. *)
Fixpoint lookup_overlap (table : list (variable * variable * (nat * nat)))
    (a b : variable) : option (nat * nat) :=
  match table with
  | [] => None
  | (a', b', o) :: table' =>
      if bool_decide (a' = a) && bool_decide (b' = b) then Some o
      else lookup_overlap table' a b
  end.

Definition make_crossword (vars : list variable) (ws : list string)
    (table : list (variable * variable * (nat * nat))) : Crossword :=
  {| variables := vars;
     words := ws;
     overlaps := lookup_overlap table;
     neighbors := fun v =>
       filter (fun u => u ≠ v ∧ is_Some (lookup_overlap table u v)) vars;
     neighbors_None := Val [] |}.

Definition across2 : variable := mkVariable 0 0 ACROSS 2.
Definition down2 : variable := mkVariable 0 0 DOWN 2.
Definition down3 : variable := mkVariable 0 0 DOWN 3.
Definition across2_below : variable := mkVariable 2 0 ACROSS 2.
Definition across3 : variable := mkVariable 0 0 ACROSS 3.

(** Two slots that share their first cell. *)
Definition crossing (x y : variable) (ws : list string) : Crossword :=
  make_crossword [x; y] ws [(x, y, (0, 0)); (y, x, (0, 0))].

(** Two slots that do not meet. *)
Definition apart (x z : variable) (ws : list string) : Crossword :=
  make_crossword [x; z] ws [].

(** A single slot. *)
Definition single (x : variable) (ws : list string) : Crossword :=
  make_crossword [x] ws [].

(** ** Properties of the shrinking relation *)

Lemma shrunk_refl x s : shrunk x s s.
Proof. by left. Qed.

Lemma shrunk_trans x s1 s2 s3 : shrunk x s1 s2 → shrunk x s2 s3 → shrunk x s1 s3.
Proof.
  intros [-> | (l & l' & Hl & -> & Hsub & Hlen)]; [done |].
  intros [-> | (k & k' & Hk & -> & Hsub' & Hlen')].
  - right. by exists l, l'.
  - right. rewrite lookup_insert_eq in Hk. injection Hk as <-.
    exists l, k'. rewrite insert_insert_eq. repeat split; [done | | lia].
    by etrans.
Qed.

Lemma shrunk_lookup x s s' l :
  shrunk x s s' → s !! x = Some l →
  ∃ l', s' !! x = Some l' ∧ l' `sublist_of` l.
Proof.
  intros [-> | (k & k' & Hk & -> & Hsub & _)] Hl.
  - by exists l.
  - rewrite Hl in Hk. injection Hk as <-. exists k'.
    by rewrite lookup_insert_eq.
Qed.

Lemma shrunk_length x s s' :
  shrunk x s s' →
  length (default [] (s' !! x)) ≤ length (default [] (s !! x)).
Proof.
  intros [-> | (k & k' & Hk & -> & _ & Hlen)]; [done |].
  rewrite lookup_insert_eq, Hk. simpl. lia.
Qed.

Lemma shrunk_other x z s s' : shrunk x s s' → z ≠ x → s' !! z = s !! z.
Proof.
  intros [-> | (k & k' & _ & -> & _)] Hz; [done |].
  by rewrite lookup_insert_ne.
Qed.

Lemma remove_first_Some w l l' :
  remove_first w l = Some l' → l' `sublist_of` l ∧ length l = S (length l').
Proof.
  revert l'. induction l as [| a l IH]; intros l'; simpl; [done |].
  destruct (decide (a = w)) as [-> | Hne].
  - intros [= ->]. split; [by apply sublist_cons | done].
  - destruct (remove_first w l) as [r |]; [| done].
    intros [= <-]. destruct (IH r eq_refl) as [Hs Hl].
    split; [by apply sublist_skip | simpl; lia].
Qed.

Lemma remove_first_elem w l : w ∈ l → is_Some (remove_first w l).
Proof.
  induction l as [| a l IH]; simpl; [by intros ?%not_elem_of_nil |].
  destruct (decide (a = w)); [done |].
  intros [? | Hin]%elem_of_cons; [congruence |].
  destruct (IH Hin) as [r ->]. done.
Qed.

Lemma domain_remove_cases x w s :
  (∃ l l', s !! x = Some l ∧ remove_first w l = Some l' ∧
           domain_remove x w s = (Val tt, <[x := l']> s)) ∨
  (∃ e, domain_remove x w s = (Exn e, s)).
Proof.
  unfold domain_remove, bind, get_domain.
  destruct (s !! x) as [l |] eqn:Hl; [| right; by exists KeyError].
  destruct (remove_first w l) as [l' |] eqn:Hr.
  - left. by exists l, l'.
  - right. by exists ValueError.
Qed.

Lemma domain_remove_ok x w s :
  fst (domain_remove x w s) ≠ NoFuel ∧ shrunk x s (snd (domain_remove x w s)).
Proof.
  destruct (domain_remove_cases x w s)
    as [(l & l' & Hl & Hr & ->) | (e & ->)]; simpl.
  - split; [done |]. right. exists l, l'.
    destruct (remove_first_Some _ _ _ Hr). repeat split; [done.. | lia].
  - split; [done | apply shrunk_refl].
Qed.

(** ** Totality *)

Lemma for_in_domain_total {A} x (body : string -> A -> M A) :
  body_ok x body →
  ∀ fuel idx acc s,
    length (default [] (s !! x)) - idx ≤ fuel →
    fst (for_in_domain fuel x idx body acc s) ≠ NoFuel ∧
    shrunk x s (snd (for_in_domain fuel x idx body acc s)).
Proof.
  intros Hbody. induction fuel as [| fuel IH]; intros idx acc s Hfuel; simpl.
  - destruct (default [] (s !! x) !! idx) as [w |] eqn:Hw.
    + apply lookup_lt_Some in Hw. lia.
    + split; [done | apply shrunk_refl].
  - destruct (default [] (s !! x) !! idx) as [w |] eqn:Hw;
      [| split; [done | apply shrunk_refl]].
    apply lookup_lt_Some in Hw.
    destruct (Hbody w acc s) as [Hnf Hsh].
    destruct (body w acc s) as [[acc' | e |] s1]; simpl in *;
      [| done | done].
    pose proof (shrunk_length _ _ _ Hsh) as Hlen.
    destruct (IH (S idx) acc' s1) as [Hnf' Hsh']; [lia |].
    split; [done | by eapply shrunk_trans].
Qed.

Lemma conflict_scan_fuel ox oy wx ly : conflict_scan ox oy wx ly ≠ NoFuel.
Proof.
  induction ly as [| wy ly IH]; simpl; [done |].
  unfold str_index.
  destruct (String.get ox wx); [| done].
  destruct (String.get oy wy); [| done].
  by destruct (_ && _).
Qed.

Section Totality.

Variable cw : Crossword.

Lemma node_body_ok var : body_ok var (node_body var).
Proof.
  intros w [] s. unfold node_body.
  destruct (negb _); [apply domain_remove_ok |].
  split; [done | apply shrunk_refl].
Qed.

Lemma revise_body_ok x y ox oy : body_ok x (revise_body x y ox oy).
Proof.
  intros w acc s. unfold revise_body, bind, get_domain, lift.
  destruct (s !! y) as [ly |]; [| split; [done | apply shrunk_refl]].
  pose proof (conflict_scan_fuel ox oy w ly) as Hc.
  destruct (conflict_scan ox oy w ly) as [[] | e |];
    [| split; [done | apply shrunk_refl].. | done].
  pose proof (domain_remove_ok x w s) as [Hnf Hsh].
  destruct (domain_remove x w s) as [[[] | e |] s1]; simpl in *; done.
Qed.

(** [revise] always terminates, and only shrinks the domain of [x]. *)
Lemma revise_total x y s :
  fst (revise cw x y s) ≠ NoFuel ∧ shrunk x s (snd (revise cw x y s)).
Proof.
  unfold revise.
  destruct (negb _); [split; [done | apply shrunk_refl] |].
  destruct (overlaps cw x y) as [[ox oy] |].
  - unfold bind, get_domain.
    destruct (s !! x) as [lx |] eqn:Hx; [| split; [done | apply shrunk_refl]].
    apply for_in_domain_total; [apply revise_body_ok |].
    rewrite Hx. simpl. lia.
  - unfold bind, get_domain.
    destruct (s !! y) as [ly |]; [| split; [done | apply shrunk_refl]].
    destruct (Nat.eqb _ _); [| split; [done | apply shrunk_refl]].
    destruct ly as [| w ly]; [split; [done | apply shrunk_refl] |].
    destruct (s !! x) as [lx |] eqn:Hx; [| split; [done | apply shrunk_refl]].
    destruct (bool_decide _); [| split; [done | apply shrunk_refl]].
    pose proof (domain_remove_ok x w s) as [Hnf Hsh].
    destruct (domain_remove x w s) as [[[] | e |] s1]; simpl in *; done.
Qed.

Lemma for_in_total {A B} (l : list B) (body : B -> A -> M A) :
  (∀ b acc s, fst (body b acc s) ≠ NoFuel) →
  ∀ acc s, fst (for_in l body acc s) ≠ NoFuel.
Proof.
  intros Hbody. induction l as [| b l IH]; intros acc s; simpl; [done |].
  unfold bind. specialize (Hbody b acc s).
  destruct (body b acc s) as [[acc' | e |] s1]; simpl in *; [apply IH | done..].
Qed.

Lemma enforce_node_consistency_total s :
  fst (enforce_node_consistency cw s) ≠ NoFuel.
Proof.
  apply for_in_total. intros var [] s1. unfold bind, get_domain.
  destruct (s1 !! var) as [l |] eqn:Hl; [| done].
  apply for_in_domain_total; [apply node_body_ok |].
  rewrite Hl. simpl. lia.
Qed.

(** One iteration of the worklist loop, by the outcome of [revise]: on a
    revised arc whose domain is not empty the re-queueing statements raise,
    so the loop goes on only after an arc that was not revised. *)
Lemma ac3_loop_cons fuel x y arcs s :
  ac3_loop cw (S fuel) ((x, y) :: arcs) s =
    match revise cw x y s with
    | (Val true, s1) =>
        match s1 !! x with
        | None => (Exn KeyError, s1)
        | Some [] => (Val false, s1)
        | Some (_ :: _) =>
            (Exn (if bool_decide (y ∈ neighbors cw x)
                  then TypeError else KeyError), s1)
        end
    | (Val false, s1) => ac3_loop cw fuel arcs s1
    | (Exn e, s1) => (Exn e, s1)
    | (NoFuel, s1) => (NoFuel, s1)
    end.
Proof.
  simpl. unfold bind at 1.
  destruct (revise cw x y s) as [[[] | e |] s1]; try done.
  unfold bind, get_domain, lift, collection_remove.
  destruct (s1 !! x) as [[| w l] |]; try done. simpl.
  by destruct (bool_decide (y ∈ neighbors cw x)).
Qed.

Lemma ac3_loop_nil fuel s : ac3_loop cw fuel [] s = (Val true, s).
Proof. by destruct fuel. Qed.

(** The loop never needs more fuel than the length of the worklist. *)
Lemma ac3_loop_total arcs :
  ∀ k s,
    ac3_loop cw (length arcs + k) arcs s = ac3_loop cw (length arcs) arcs s ∧
    fst (ac3_loop cw (length arcs) arcs s) ≠ NoFuel.
Proof.
  induction arcs as [| [x y] arcs IH]; intros k s;
    [by rewrite !ac3_loop_nil |].
  change (length ((x, y) :: arcs) + k) with (S (length arcs + k)).
  change (length ((x, y) :: arcs)) with (S (length arcs)).
  rewrite !ac3_loop_cons.
  pose proof (revise_total x y s) as [Hnf _].
  destruct (revise cw x y s) as [[[] | e |] s1]; simpl in *;
    [| apply IH | done..].
  by destruct (s1 !! x) as [[| w l] |].
Qed.

End Totality.

Lemma never_grown_refl s : never_grown s s.
Proof. intros v l Hl. by exists l. Qed.

Lemma never_grown_trans s1 s2 s3 :
  never_grown s1 s2 → never_grown s2 s3 → never_grown s1 s3.
Proof.
  intros H12 H23 v l3 Hl3.
  destruct (H23 v l3 Hl3) as (l2 & Hl2 & Hs2).
  destruct (H12 v l2 Hl2) as (l1 & Hl1 & Hs1).
  exists l1. split; [done | by etrans].
Qed.

Lemma shrunk_never_grown x s s' : shrunk x s s' → never_grown s s'.
Proof.
  intros [-> | (l & l' & Hl & -> & Hsub & _)]; [apply never_grown_refl |].
  intros v k. destruct (decide (v = x)) as [-> | Hne].
  - rewrite lookup_insert_eq. intros [= <-]. by exists l.
  - rewrite lookup_insert_ne by done. intros Hk. by exists k.
Qed.

Lemma ac3_loop_never_grown cw fuel arcs :
  ∀ s, never_grown s (snd (ac3_loop cw fuel arcs s)).
Proof.
  revert arcs. induction fuel as [| fuel IH]; intros [| [x y] arcs] s;
    try apply never_grown_refl.
  rewrite ac3_loop_cons.
  pose proof (revise_total cw x y s) as [_ Hsh%shrunk_never_grown].
  destruct (revise cw x y s) as [[[] | e |] s1]; simpl in *;
    [| eapply never_grown_trans; [exact Hsh | apply IH] | exact Hsh..].
  by destruct (s1 !! x) as [[| w l] |].
Qed.

(** ** What [revise] establishes *)

Lemma conflict_scan_false ox oy wx ly :
  conflict_scan ox oy wx ly = Val false → supported ox oy wx ly.
Proof.
  induction ly as [| wy ly IH]; simpl; [done |].
  unfold str_index.
  destruct (String.get ox wx) as [cx |] eqn:Hx; [| done].
  destruct (String.get oy wy) as [cy |] eqn:Hy; [| done].
  destruct (bool_decide (cx = cy) && negb (bool_decide (wx = wy))) eqn:Hb.
  - intros _. apply andb_true_iff in Hb as [Hc Hw].
    apply bool_decide_eq_true in Hc as <-.
    apply negb_true_iff, bool_decide_eq_false in Hw.
    exists wy. split; [apply list_elem_of_here |]. split; [by exists cx | done].
  - intros (wy' & Hin & Hag & Hne)%IH.
    exists wy'. split; [by apply list_elem_of_further | done].
Qed.

Lemma conflict_scan_true ox oy wx ly c :
  String.get ox wx = Some c →
  (∀ wy, wy ∈ ly → ∃ cy, String.get oy wy = Some cy ∧ (cy = c → wy = wx)) →
  conflict_scan ox oy wx ly = Val true.
Proof.
  intros Hx. induction ly as [| wy ly IH]; intros Hall; simpl; [done |].
  unfold str_index. rewrite Hx.
  destruct (Hall wy) as (cy & -> & Hsame); [apply list_elem_of_here |].
  assert (bool_decide (c = cy) && negb (bool_decide (wx = wy)) = false) as ->.
  { destruct (decide (c = cy)) as [<- | Hne].
    - rewrite (Hsame eq_refl).
      by rewrite !bool_decide_eq_true_2.
    - by rewrite (bool_decide_eq_false_2 _ Hne). }
  apply IH. intros wy' Hin. apply Hall. by apply list_elem_of_further.
Qed.

Section Revise.

Variable cw : Crossword.

(** When the scan of the domain of [x] ends with [revision] still [False],
    nothing was removed and every word from the start index on was found a
    support. *)
Lemma revise_loop_false x y ox oy fuel :
  ∀ idx acc s s',
    for_in_domain fuel x idx (revise_body x y ox oy) acc s = (Val false, s') →
    acc = false ∧ s' = s ∧
    ∀ k w, idx ≤ k → default [] (s !! x) !! k = Some w →
      ∃ ly, s !! y = Some ly ∧ supported ox oy w ly.
Proof.
  induction fuel as [| fuel IH]; intros idx acc s s'; simpl;
    destruct (default [] (s !! x) !! idx) as [w |] eqn:Hw; try done.
  - intros [= -> ->]. repeat split; [].
    intros k w Hk Hkw. apply lookup_ge_None in Hw.
    apply lookup_lt_Some in Hkw. lia.
  - unfold revise_body, bind, get_domain, lift.
    destruct (s !! y) as [ly |] eqn:Hy; [| done].
    destruct (conflict_scan ox oy w ly) as [[] | e |] eqn:Hc; [| | done..].
    + destruct (domain_remove_cases x w s)
        as [(l & l' & Hl & Hr & ->) | (e & ->)]; [| done].
      unfold ret. by intros [? _]%IH.
    + unfold ret. intros (-> & -> & Hrest)%IH.
      repeat split; []. intros k w' Hk Hkw.
      destruct (decide (k = idx)) as [-> | Hne].
      * rewrite Hw in Hkw. injection Hkw as <-.
        exists ly. split; [done | by apply conflict_scan_false].
      * rewrite <- Hy. apply (Hrest k); [lia | done].
  - intros [= -> ->]. repeat split; [].
    intros k w Hk Hkw. apply lookup_ge_None in Hw.
    apply lookup_lt_Some in Hkw. lia.
Qed.

(** [revise] on variables of different lengths returns at once. *)
Lemma revise_length_guard x y s :
  var_length x ≠ var_length y → revise cw x y s = (Val false, s).
Proof.
  intros Hne. unfold revise.
  by rewrite (proj2 (Nat.eqb_neq _ _) Hne).
Qed.

(** An examined word without support is removed by the loop body. *)
Lemma revise_body_conflict x y ox oy w acc s ly l l' :
  s !! y = Some ly → conflict_scan ox oy w ly = Val true →
  s !! x = Some l → remove_first w l = Some l' →
  revise_body x y ox oy w acc s = (Val true, <[x := l']> s).
Proof.
  intros Hy Hc Hx Hr. unfold revise_body, bind, get_domain, lift.
  rewrite Hy, Hc. unfold domain_remove, bind, get_domain. by rewrite Hx, Hr.
Qed.

End Revise.

(** ** solve *)

(** C1: [solve] never returns a value to its caller: whatever the puzzle and
    the state of the domains, given fuel for the worklist it ends by raising
    an exception ([backtrack] raises [NotImplementedError] when it is
    reached), and with any fuel it returns neither an assignment nor the
    no-solution value. *)
Theorem solve_always_raises (cw : Crossword) (s : domains) (k : nat) :
  (∃ e, fst (solve cw (length (all_arcs cw) + k) s) = Exn e) ∧
  (∀ fuel r, fst (solve cw fuel s) ≠ Val r).
Proof.
  split.
  - unfold solve, bind.
    pose proof (enforce_node_consistency_total cw s) as Hn.
    destruct (enforce_node_consistency cw s) as [[[] | e |] s1]; simpl in *;
      [| by exists e | done].
    unfold ac3.
    destruct (ac3_loop_total cw (all_arcs cw) k s1) as [-> Ha].
    destruct (ac3_loop cw (length (all_arcs cw)) (all_arcs cw) s1)
      as [[b | e |] s2]; simpl in *; [| by exists e | done].
    by exists NotImplementedError.
  - intros fuel r. unfold solve, bind.
    destruct (enforce_node_consistency cw s) as [[[] | e |] s1]; [| done..].
    by destruct (ac3 cw fuel None s1) as [[b | e |] s2].
Qed.

(** C2 (as stated, refuted): on the crossing of two slots of length 2 with
    the single word AB, arc consistency empties the domain of the across slot
    and [ac3] returns [False], yet [solve] goes on to [backtrack] and ends
    with its exception instead of the no-solution value. *)
Lemma solve_backtracks_after_emptied_domain :
  let P := crossing across2 down2 ["AB"%string] in
  let s1 := snd (enforce_node_consistency P (init_domains P)) in
  fst (ac3 P 2 None s1) = Val false ∧
  snd (ac3 P 2 None s1) !! across2 = Some [] ∧
  solve P 2 (init_domains P) = backtrack [] (snd (ac3 P 2 None s1)) ∧
  fst (solve P 2 (init_domains P)) ≠ Val None.
Proof. vm_compute. repeat split; discriminate. Qed.

(** C2 (amended): [solve] discards the result of [ac3]: when node and arc
    consistency end without an exception, whether [ac3] returned [True] or
    [False], [solve] calls [backtrack] on the empty assignment and its
    outcome is the outcome of that call. *)
Theorem solve_ignores_ac3_result (cw : Crossword) (fuel : nat)
    (s s1 s2 : domains) (b : bool) :
  enforce_node_consistency cw s = (Val tt, s1) →
  ac3 cw fuel None s1 = (Val b, s2) →
  solve cw fuel s = backtrack [] s2.
Proof.
  intros Hn Ha. unfold solve, bind. by rewrite Hn, Ha.
Qed.

Lemma solve_ignores_ac3_result_witness :
  let P := crossing across2 down2 ["AB"%string] in
  ∃ s1 s2,
    enforce_node_consistency P (init_domains P) = (Val tt, s1) ∧
    ac3 P 2 None s1 = (Val false, s2) ∧
    solve P 2 (init_domains P) = backtrack [] s2.
Proof.
  intros P.
  exists (snd (enforce_node_consistency P (init_domains P))).
  exists (snd (ac3 P 2 None (snd (enforce_node_consistency P (init_domains P))))).
  assert (enforce_node_consistency P (init_domains P) =
          (Val tt, snd (enforce_node_consistency P (init_domains P)))) as Hn
    by (vm_compute; reflexivity).
  assert (ac3 P 2 None (snd (enforce_node_consistency P (init_domains P))) =
          (Val false,
           snd (ac3 P 2 None (snd (enforce_node_consistency P (init_domains P))))))
    as Ha by (vm_compute; reflexivity).
  split; [exact Hn |]. split; [exact Ha |].
  exact (solve_ignores_ac3_result P 2 _ _ _ false Hn Ha).
Defined.

(** ** ac3 *)

(** C9: [ac3] terminates on every crossword, every state of the domains and
    every initial worklist, supplied or not: fuel equal to the length of the
    initial worklist is enough and more fuel changes nothing; no domain ever
    grows, and each revision leaves the domains as they were or replaces the
    domain of [x] by a strictly shorter sublist. *)
Theorem ac3_terminates (cw : Crossword)
    (arcs : option (list (variable * variable))) (s : domains) (k : nat) :
  let worklist := match arcs with Some a => a | None => all_arcs cw end in
  ac3 cw (length worklist + k) arcs s = ac3 cw (length worklist) arcs s ∧
  fst (ac3 cw (length worklist) arcs s) ≠ NoFuel ∧
  never_grown s (snd (ac3 cw (length worklist) arcs s)) ∧
  (∀ x y s0, fst (revise cw x y s0) ≠ NoFuel ∧
             shrunk x s0 (snd (revise cw x y s0))).
Proof.
  intros worklist. unfold ac3. fold worklist.
  destruct (ac3_loop_total cw worklist k s) as [Heq Hnf].
  repeat split; [exact Heq | exact Hnf | apply ac3_loop_never_grown | |];
    apply revise_total.
Qed.

(** C4 (what the code does): when the revision of the popped arc [(x, y)]
    removed a word and left the domain of [x] non-empty, [ac3] appends
    nothing and does not continue: [neighbors(x).remove(y)] evaluates to
    [None], and the loop over it raises [TypeError] ([KeyError] when [y] is
    not a neighbor of [x]). *)
Theorem ac3_requeue_raises (cw : Crossword) (fuel : nat) (x y : variable)
    (arcs : list (variable * variable)) (s s' : domains) (w : string)
    (l : list string) :
  revise cw x y s = (Val true, s') →
  s' !! x = Some (w :: l) →
  ac3_loop cw (S fuel) ((x, y) :: arcs) s =
    (Exn (if bool_decide (y ∈ neighbors cw x) then TypeError else KeyError), s').
Proof.
  intros Hrev Hx. by rewrite ac3_loop_cons, Hrev, Hx.
Qed.

Lemma ac3_requeue_raises_witness :
  let P := crossing across2 down2 ["AB"%string; "CD"%string] in
  let s' := snd (revise P across2 down2 (init_domains P)) in
  s' !! across2 = Some ["CD"%string] ∧
  ac3 P 2 None (init_domains P) = (Exn TypeError, s').
Proof.
  intros P s'.
  assert (revise P across2 down2 (init_domains P) = (Val true, s')) as Hrev
    by (vm_compute; reflexivity).
  assert (s' !! across2 = Some ["CD"%string]) as Hx by (vm_compute; reflexivity).
  split; [exact Hx |].
  exact (ac3_requeue_raises P 1 across2 down2 [(down2, across2)]
           (init_domains P) s' "CD"%string [] Hrev Hx).
Defined.

(** ** revise *)

(** C3 (as stated, refuted): an across slot of length 3 crosses a down slot
    of length 2 at their first cells; after node consistency the domains are
    [ABC] and [XY].  [revise] returns [False] at once and leaves ABC, which
    no word in the other domain matches at the overlap. *)
Lemma revise_unequal_lengths_not_arc_consistent :
  let P := crossing across3 down2 ["ABC"%string; "XY"%string] in
  let s := snd (enforce_node_consistency P (init_domains P)) in
  overlaps P across3 down2 = Some (0, 0) ∧
  revise P across3 down2 s = (Val false, s) ∧
  ¬ arc_consistent P across3 down2 s.
Proof.
  intros P s.
  split; [reflexivity |]. split; [vm_compute; reflexivity |].
  intros Hac.
  assert (s !! across3 = Some ["ABC"%string]) as Hx by (vm_compute; reflexivity).
  assert (s !! down2 = Some ["XY"%string]) as Hy by (vm_compute; reflexivity).
  destruct (Hac _ "ABC"%string Hx) as (ly & wy & Hly & Hin & Hsat);
    [apply list_elem_of_here |].
  rewrite Hy in Hly. injection Hly as <-.
  apply list_elem_of_singleton in Hin as ->.
  destruct Hsat as (c & Hc1 & Hc2). vm_compute in Hc1, Hc2. congruence.
Qed.

(** C3 (amended): on variables of different lengths [revise] returns
    [False] and changes nothing.  On variables of equal length with a defined
    overlap, when [revise] returns [False] it has changed nothing and every
    word in the domain of [x] has a word in the domain of [y], different
    from it, with the same character at the overlap offsets; so the pair is
    arc consistent.  With no overlap defined, the pair is arc consistent
    whenever the domain of [y] is not empty. *)
Theorem revise_arc_consistency (cw : Crossword) (x y : variable)
    (s s' : domains) (r : result bool) :
  revise cw x y s = (r, s') →
  (var_length x ≠ var_length y → r = Val false ∧ s' = s) ∧
  (var_length x = var_length y → is_Some (overlaps cw x y) → r = Val false →
     s' = s ∧ arc_consistent cw x y s' ∧
     ∀ ox oy lx wx, overlaps cw x y = Some (ox, oy) →
       s' !! x = Some lx → wx ∈ lx →
       ∃ ly, s' !! y = Some ly ∧ supported ox oy wx ly) ∧
  (overlaps cw x y = None → ∀ ly wy, s' !! y = Some ly → wy ∈ ly →
     arc_consistent cw x y s').
Proof.
  intros Hrev. split; [| split].
  - intros Hne. rewrite revise_length_guard in Hrev by done.
    by injection Hrev as <- <-.
  - intros Heq [[ox oy] Hov] ->.
    unfold revise in Hrev.
    rewrite Heq, Nat.eqb_refl, Hov in Hrev. simpl in Hrev.
    unfold bind, get_domain in Hrev.
    destruct (s !! x) as [lx |] eqn:Hx; [| done].
    apply revise_loop_false in Hrev as (_ & -> & Hsup).
    assert (∀ lx0 wx, s !! x = Some lx0 → wx ∈ lx0 →
              ∃ ly, s !! y = Some ly ∧ supported ox oy wx ly) as Hall.
    { intros lx0 wx Hx0 (k & Hk)%list_elem_of_lookup.
      apply (Hsup k); [lia |]. by rewrite Hx0. }
    split; [done |]. split.
    + intros lx0 wx Hx0 Hin.
      destruct (Hall lx0 wx Hx0 Hin) as (ly & Hy & wy & Hwy & Hag & _).
      exists ly, wy. by rewrite Hov.
    + intros ox' oy' lx0 wx Hov'. rewrite Hov in Hov'.
      injection Hov' as <- <-. apply Hall.
  - intros Hov ly wy Hy Hin lx wx _ _.
    exists ly, wy. by rewrite Hov.
Qed.

Lemma revise_arc_consistency_witness :
  let P := crossing across3 down2 ["ABC"%string; "XY"%string] in
  let Q := crossing across2 down2 ["AB"%string; "AC"%string] in
  (var_length across3 ≠ var_length down2 ∧
   revise P across3 down2 (init_domains P) = (Val false, init_domains P)) ∧
  (var_length across2 = var_length down2 ∧
   is_Some (overlaps Q across2 down2) ∧
   revise Q across2 down2 (init_domains Q) = (Val false, init_domains Q) ∧
   arc_consistent Q across2 down2 (init_domains Q)).
Proof.
  intros P Q. split.
  - assert (var_length across3 ≠ var_length down2) as Hne by (simpl; lia).
    split; [exact Hne |].
    destruct (revise P across3 down2 (init_domains P)) as [r s'] eqn:Hrev.
    destruct (revise_arc_consistency P across3 down2 _ s' r Hrev)
      as [Hguard _].
    destruct (Hguard Hne) as [-> ->]. reflexivity.
  - assert (var_length across2 = var_length down2) as Heq by reflexivity.
    assert (is_Some (overlaps Q across2 down2)) as Hov by (eexists; reflexivity).
    assert (revise Q across2 down2 (init_domains Q) =
            (Val false, init_domains Q)) as Hrev by (vm_compute; reflexivity).
    split; [exact Heq |]. split; [exact Hov |]. split; [exact Hrev |].
    destruct (revise_arc_consistency Q across2 down2 _ _ _ Hrev)
      as (_ & Hkeep & _).
    exact (proj1 (proj2 (Hkeep Heq Hov eq_refl))).
Defined.

(** C10 (as stated, refuted): an across slot of length 2 crosses a down slot
    of length 3 at their first cells, both domains still holding the whole
    word list.  The only word of the down domain that agrees with AB at the
    overlap is AB itself, and [revise] returns [False] with AB still in the
    across domain. *)
Lemma revise_unequal_lengths_keeps_self_supported :
  let P := crossing across2 down3 ["AB"%string; "XYZ"%string] in
  let s := init_domains P in
  overlaps P across2 down3 = Some (0, 0) ∧
  s !! across2 = Some ["AB"%string; "XYZ"%string] ∧
  s !! down3 = Some ["AB"%string; "XYZ"%string] ∧
  (∀ wy, wy ∈ ["AB"%string; "XYZ"%string] → agree 0 0 "AB" wy → wy = "AB"%string) ∧
  revise P across2 down3 s = (Val false, s).
Proof.
  intros P s.
  split; [reflexivity |]. split; [vm_compute; reflexivity |].
  split; [vm_compute; reflexivity |]. split; [| vm_compute; reflexivity].
  intros wy Hin (c & Hc1 & Hc2).
  apply elem_of_cons in Hin as [-> | Hin]; [done |].
  apply list_elem_of_singleton in Hin as ->.
  vm_compute in Hc1, Hc2. congruence.
Qed.

(** C10 (amended): let [x] and [y] have equal length and a defined overlap,
    let [w] be the first word of the domain of [x], and let every word of the
    domain of [y] be long enough for the overlap offset.  If every word of
    the domain of [y] that agrees with [w] at the overlap is [w] itself,
    whatever the size of that domain, then [revise] removes this occurrence
    of [w]: it does not return [False], and the domain of [x] afterwards is
    a sublist of the words that followed [w]. *)
Theorem revise_same_word_not_support (cw : Crossword) (x y : variable)
    (s : domains) (ox oy : nat) (w : string) (lx ly : list string) (c : ascii) :
  var_length x = var_length y →
  overlaps cw x y = Some (ox, oy) →
  s !! x = Some (w :: lx) →
  s !! y = Some ly →
  String.get ox w = Some c →
  (∀ wy, wy ∈ ly → ∃ cy, String.get oy wy = Some cy ∧ (cy = c → wy = w)) →
  ∃ r s' lx',
    revise cw x y s = (r, s') ∧ r ≠ Val false ∧ r ≠ NoFuel ∧
    s' !! x = Some lx' ∧ lx' `sublist_of` lx.
Proof.
  intros Heq Hov Hx Hy Hc Hself.
  unfold revise. rewrite Heq, Nat.eqb_refl, Hov. simpl.
  unfold bind at 1, get_domain at 1. rewrite Hx.
  change (length (w :: lx)) with (S (length lx)). simpl for_in_domain.
  rewrite Hx. simpl.
  rewrite (revise_body_conflict x y ox oy w false s ly (w :: lx) lx); try done.
  2: { by eapply conflict_scan_true. }
  2: { simpl. by rewrite decide_True. }
  set (s1 := <[x := lx]> s).
  assert (s1 !! x = Some lx) as Hx1 by apply lookup_insert_eq.
  destruct (for_in_domain_total x _ (revise_body_ok x y ox oy)
              (length lx) 1 true s1) as [Hnf Hsh].
  { rewrite Hx1. simpl. lia. }
  destruct (for_in_domain (length lx) x 1 (revise_body x y ox oy) true s1)
    as [r s'] eqn:Hloop. simpl in *.
  destruct (shrunk_lookup _ _ _ _ Hsh Hx1) as (lx' & Hx' & Hsub).
  exists r, s', lx'. repeat split; try done.
  intros ->. by apply revise_loop_false in Hloop as [? _].
Qed.

Lemma revise_same_word_not_support_witness :
  let P := crossing across2 down2 ["AB"%string; "CD"%string] in
  ∃ r s',
    revise P across2 down2 (init_domains P) = (r, s') ∧ r ≠ Val false ∧
    r ≠ NoFuel ∧
    ∃ lx', s' !! across2 = Some lx' ∧ lx' `sublist_of` ["CD"%string].
Proof.
  intros P.
  assert (init_domains P !! across2 = Some ["AB"%string; "CD"%string]) as Hx
    by (vm_compute; reflexivity).
  assert (init_domains P !! down2 = Some ["AB"%string; "CD"%string]) as Hy
    by (vm_compute; reflexivity).
  assert (∀ wy, wy ∈ ["AB"%string; "CD"%string] →
            ∃ cy, String.get 0 wy = Some cy ∧
                  (cy = "A"%char → wy = "AB"%string)) as Hself.
  { intros wy Hin. apply elem_of_cons in Hin as [-> | Hin].
    - exists "A"%char. split; reflexivity.
    - apply list_elem_of_singleton in Hin as ->.
      exists "C"%char. split; [reflexivity | discriminate]. }
  destruct (revise_same_word_not_support P across2 down2 (init_domains P)
              0 0 "AB"%string ["CD"%string] ["AB"%string; "CD"%string]
              "A"%char eq_refl eq_refl Hx Hy eq_refl Hself)
    as (r & s' & lx' & Hrev & Hr & Hnf & Hx' & Hsub).
  exists r, s'. split; [exact Hrev |]. split; [exact Hr |].
  split; [exact Hnf |]. exists lx'. split; [exact Hx' | exact Hsub].
Defined.

(** ** consistent *)

(** C5 (what the code does): [consistent] raises [KeyError] on an assignment
    that leaves a neighbor of an assigned variable unassigned, and it
    accepts the same word on two variables. *)
Theorem consistent_unassigned_neighbor_and_reuse :
  consistent (crossing across2 down2 ["AB"%string; "AC"%string])
    [(across2, Some "AB"%string)] = Exn KeyError ∧
  consistent (apart across2 across2_below ["AB"%string; "AC"%string])
    [(across2, Some "AB"%string); (across2_below, Some "AB"%string)] = Val true.
Proof. split; vm_compute; reflexivity. Qed.

(** ** assignment_complete *)

(** C6 (what the code does): [assignment_complete] looks at the entries of
    the assignment only, never at the variables of the puzzle: it returns
    [True] exactly when no entry holds [None], so it returns [True] on the
    empty assignment, whatever variables the puzzle has. *)
Theorem assignment_complete_ignores_missing_variables (a : assignment) :
  (assignment_complete a = true ↔ ∀ v, (v, None) ∉ a) ∧
  assignment_complete [] = true.
Proof.
  split; [| reflexivity].
  induction a as [| [v [w |]] a IH]; simpl.
  - split; [| done]. intros _ v. apply not_elem_of_nil.
  - rewrite IH. split.
    + intros H v' [[=] | Hin]%elem_of_cons. by apply (H v').
    + intros H v' Hin. apply (H v'). by apply list_elem_of_further.
  - split; [done |]. intros H. destruct (H v). apply list_elem_of_here.
Qed.

(** ** select_unassigned_variable *)

Lemma select_loop_nonempty (a : assignment) (s : domains) (vars : list variable) :
  (∀ v, v ∈ vars → in_assignment v a = false → ∃ w l, s !! v = Some (w :: l)) →
  for_in vars (select_body a) (None, None, 0) s = (Val (None, None, 0), s).
Proof.
  induction vars as [| var vars IH]; intros Hdom; cbn [for_in]; [done |].
  assert (select_body a var (None, None, 0) s = (Val (None, None, 0), s)) as Hb.
  { unfold select_body.
    destruct (in_assignment var a) eqn:Hin; [done |].
    destruct (Hdom var) as (w & l & Hl); [apply list_elem_of_here | done |].
    unfold bind, get_domain. by rewrite Hl. }
  unfold bind. rewrite Hb. apply IH.
  intros v Hv. apply Hdom. by apply list_elem_of_further.
Qed.

(** C7 (what the code does): [least_domain_count] starts at 0, which no
    domain size is below, so [least_domain_var] is never set: when every
    unassigned variable has a non-empty domain, [select_unassigned_variable]
    returns [None] and no variable at all. *)
Theorem select_unassigned_variable_none (cw : Crossword) (a : assignment)
    (s : domains) :
  (∀ v, v ∈ variables cw → in_assignment v a = false →
        ∃ w l, s !! v = Some (w :: l)) →
  select_unassigned_variable cw a s = (Val None, s).
Proof.
  intros Hdom. unfold select_unassigned_variable, bind.
  by rewrite select_loop_nonempty.
Qed.

Lemma select_unassigned_variable_none_witness :
  let P := crossing across2 down2 ["AB"%string; "AC"%string] in
  in_assignment across2 [] = false ∧
  init_domains P !! across2 = Some ["AB"%string; "AC"%string] ∧
  select_unassigned_variable P [] (init_domains P) = (Val None, init_domains P).
Proof.
  intros P. split; [reflexivity |]. split; [vm_compute; reflexivity |].
  apply (select_unassigned_variable_none P [] (init_domains P)).
  intros v Hv _.
  apply elem_of_cons in Hv as [-> | Hv];
    [| apply list_elem_of_singleton in Hv as ->];
    exists "AB"%string, ["AC"%string]; vm_compute; reflexivity.
Defined.

(** ** enforce_node_consistency *)

(** C8 (what the code does): the loop removes words from the list it is
    iterating, so the word after a removed one is skipped: for one slot of
    length 2 and the words A and B, A is removed and B, of length 1, stays
    in the domain. *)
Theorem enforce_node_consistency_skips :
  let P := single across2 ["A"%string; "B"%string] in
  ∃ s', enforce_node_consistency P (init_domains P) = (Val tt, s') ∧
        s' !! across2 = Some ["B"%string] ∧
        String.length "B" ≠ var_length across2.
Proof.
  intros P. exists (snd (enforce_node_consistency P (init_domains P))).
  split; [vm_compute; reflexivity |]. split; [vm_compute; reflexivity |].
  simpl. lia.
Qed.

(** * Further properties of the methods *)

(** ** __init__ *)

(** X1: [__init__] gives every variable of the puzzle the whole word list as its
    domain, and no domain to anything else. *)
Theorem init_domains_lookup (cw : Crossword) (v : variable) :
  init_domains cw !! v =
    if bool_decide (v ∈ variables cw) then Some (words cw) else None.
Proof.
  unfold init_domains.
  induction (variables cw) as [| u vars IH]; simpl.
  - by rewrite lookup_empty.
  - destruct (decide (u = v)) as [-> | Hne].
    + rewrite lookup_insert_eq.
      by rewrite bool_decide_eq_true_2 by apply list_elem_of_here.
    + rewrite lookup_insert_ne by done. rewrite IH.
      destruct (bool_decide (v ∈ vars)) eqn:Hin.
      * apply bool_decide_eq_true in Hin.
        by rewrite bool_decide_eq_true_2 by by apply list_elem_of_further.
      * apply bool_decide_eq_false in Hin.
        rewrite bool_decide_eq_false_2; [done |].
        intros [? | ?]%elem_of_cons; congruence.
Qed.

(** ** enforce_node_consistency, continued *)

Lemma remove_first_other w w0 l l' :
  remove_first w l = Some l' → w0 ≠ w → w0 ∈ l → w0 ∈ l'.
Proof.
  revert l'. induction l as [| a l IH]; intros l'; simpl; [done |].
  destruct (decide (a = w)) as [-> | Hne].
  - intros [= ->] Hw [? | ?]%elem_of_cons; [congruence | done].
  - destruct (remove_first w l) as [r |]; [| done].
    intros [= <-] Hw [-> | Hin]%elem_of_cons.
    + apply list_elem_of_here.
    + apply list_elem_of_further. by apply IH.
Qed.

Lemma remove_first_app w pre rest :
  w ∉ pre → remove_first w (pre ++ w :: rest) = Some (pre ++ rest).
Proof.
  induction pre as [| a pre IH]; intros Hnin; simpl.
  - by rewrite decide_True.
  - rewrite decide_False.
    + rewrite IH; [done |]. intros ?. apply Hnin. by apply list_elem_of_further.
    + intros ->. apply Hnin. apply list_elem_of_here.
Qed.

Lemma for_in_domain_unfold {A} fuel x idx (body : string -> A -> M A) acc s :
  for_in_domain fuel x idx body acc s =
    match default [] (s !! x) !! idx with
    | None => (Val acc, s)
    | Some w =>
        match fuel with
        | O => (NoFuel, s)
        | S fuel' =>
            match body w acc s with
            | (Val acc', s') => for_in_domain fuel' x (S idx) body acc' s'
            | (Exn e, s') => (Exn e, s')
            | (NoFuel, s') => (NoFuel, s')
            end
        end
    end.
Proof. by destruct fuel. Qed.

(** The inner loop on a variable that has a domain: it returns, and the
    domain it leaves is a sublist that still holds every word of the right
    length; a domain of such words only is left as it is. *)
Lemma node_loop_spec var fuel :
  ∀ idx s cur,
    s !! var = Some cur → length cur - idx ≤ fuel →
    ∃ cur',
      for_in_domain fuel var idx (node_body var) tt s =
        (Val tt, <[var := cur']> s) ∧
      cur' `sublist_of` cur ∧
      (∀ w, w ∈ cur → String.length w = var_length var → w ∈ cur') ∧
      (node_consistent var cur → cur' = cur).
Proof.
  induction fuel as [| fuel IH]; intros idx s cur Hs Hfuel;
    rewrite for_in_domain_unfold, Hs;
    change (default [] (Some cur)) with cur;
    destruct (cur !! idx) as [w |] eqn:Hw;
    try (exists cur; rewrite insert_id by done; by repeat split).
  { apply lookup_lt_Some in Hw. lia. }
  pose proof (lookup_lt_Some _ _ _ Hw) as Hlt.
  assert (w ∈ cur) as Hin by (apply list_elem_of_lookup; eauto).
  destruct (Nat.eqb (String.length w) (var_length var)) eqn:Hlen.
  - assert (node_body var w tt s = (Val tt, s)) as ->
      by (unfold node_body; by rewrite Hlen).
    destruct (IH (S idx) s cur Hs) as (cur' & -> & ?); [lia |]. by exists cur'.
  - destruct (remove_first_elem w cur Hin) as [c1 Hc1].
    assert (node_body var w tt s = (Val tt, <[var := c1]> s)) as ->.
    { unfold node_body. rewrite Hlen. cbn [negb].
      unfold domain_remove, bind, get_domain. by rewrite Hs, Hc1. }
    apply Nat.eqb_neq in Hlen.
    destruct (remove_first_Some _ _ _ Hc1) as [Hsub Hl].
    destruct (IH (S idx) (<[var := c1]> s) c1) as (cur' & -> & Hsub' & Hkeep & _);
      [apply lookup_insert_eq | lia |].
    exists cur'. rewrite insert_insert_eq. repeat split.
    + by etrans.
    + intros w0 Hw0 Hlen0. apply Hkeep; [| done].
      eapply remove_first_other; [done | congruence | done].
    + intros Hall. exfalso. apply Hlen.
      unfold node_consistent in Hall. rewrite Forall_forall in Hall.
      by apply Hall.
Qed.

Lemma node_pruned_refl s : node_pruned s s.
Proof. intros v. destruct (s !! v) as [l |] eqn:Hl; [| done]. by exists l. Qed.

Lemma node_pruned_trans s1 s2 s3 :
  node_pruned s1 s2 → node_pruned s2 s3 → node_pruned s1 s3.
Proof.
  intros H12 H23 v. specialize (H12 v). specialize (H23 v).
  destruct (s1 !! v) as [l1 |].
  - destruct H12 as (l2 & Hl2 & Hs2 & Hk2). rewrite Hl2 in H23.
    destruct H23 as (l3 & Hl3 & Hs3 & Hk3).
    exists l3. split; [done |]. split; [by etrans |].
    intros w Hw Hlen. apply Hk3; [by apply Hk2 | done].
  - by rewrite H12 in H23.
Qed.

Lemma node_pruned_insert s var cur cur' :
  s !! var = Some cur → cur' `sublist_of` cur →
  (∀ w, w ∈ cur → String.length w = var_length var → w ∈ cur') →
  node_pruned s (<[var := cur']> s).
Proof.
  intros Hs Hsub Hkeep v. destruct (decide (v = var)) as [-> | Hne].
  - rewrite Hs, lookup_insert_eq. by exists cur'.
  - rewrite lookup_insert_ne by done.
    destruct (s !! v) as [l |]; [| done]. by exists l.
Qed.

Lemma node_step_spec var s :
  match s !! var with
  | Some cur =>
      ∃ cur', node_step var tt s = (Val tt, <[var := cur']> s) ∧
              cur' `sublist_of` cur ∧
              (∀ w, w ∈ cur → String.length w = var_length var → w ∈ cur') ∧
              (node_consistent var cur → cur' = cur)
  | None => node_step var tt s = (Exn KeyError, s)
  end.
Proof.
  unfold node_step, bind, get_domain.
  destruct (s !! var) as [cur |] eqn:Hs; [| done].
  apply node_loop_spec; [done | lia].
Qed.

Lemma node_steps_spec vars :
  ∀ s, ∃ r s',
    for_in vars node_step tt s = (r, s') ∧
    node_pruned s s' ∧
    (∀ v, v ∉ vars → s' !! v = s !! v) ∧
    ((∀ v, v ∈ vars → is_Some (s !! v)) → r = Val tt) ∧
    ((∀ v, v ∈ vars → ∃ l, s !! v = Some l ∧ node_consistent v l) → s' = s).
Proof.
  induction vars as [| var vars IH]; intros s; cbn [for_in].
  - exists (Val tt), s. repeat split; auto using node_pruned_refl.
  - unfold bind. pose proof (node_step_spec var s) as Hstep.
    destruct (s !! var) as [cur |] eqn:Hs.
    + destruct Hstep as (cur' & -> & Hsub & Hkeep & Hfix).
      destruct (IH (<[var := cur']> s)) as (r & s' & -> & Hpr & Hoth & Hret & Hfp).
      exists r, s'. split; [done |]. repeat split.
      * eapply node_pruned_trans; [| done]. by eapply node_pruned_insert.
      * intros v Hv. rewrite Hoth.
        -- apply lookup_insert_ne. intros ->. apply Hv, list_elem_of_here.
        -- intros ?. apply Hv. by apply list_elem_of_further.
      * intros Hall. apply Hret. intros v Hv.
        destruct (decide (v = var)) as [-> | Hne].
        -- rewrite lookup_insert_eq. by eexists.
        -- rewrite lookup_insert_ne by done.
           apply Hall. by apply list_elem_of_further.
      * intros Hall.
        destruct (Hall var) as (l & Hl & Hnc); [apply list_elem_of_here |].
        rewrite Hs in Hl. injection Hl as <-.
        rewrite (Hfix Hnc) in Hfp. rewrite insert_id in Hfp by done.
        apply Hfp. intros v Hv. apply Hall. by apply list_elem_of_further.
    + rewrite Hstep. exists (Exn KeyError), s. repeat split.
      * apply node_pruned_refl.
      * intros Hall. destruct (Hall var) as [l Hl]; [apply list_elem_of_here |].
        congruence.
Qed.

Lemma enforce_node_consistency_steps cw s :
  enforce_node_consistency cw s = for_in (variables cw) node_step tt s.
Proof. reflexivity. Qed.

(** X2: when every variable of the puzzle has a domain, as after [__init__],
    [enforce_node_consistency] returns without raising. *)
Theorem enforce_node_consistency_returns (cw : Crossword) (s : domains) :
  (∀ v, v ∈ variables cw → is_Some (s !! v)) →
  fst (enforce_node_consistency cw s) = Val tt.
Proof.
  intros Hall. rewrite enforce_node_consistency_steps.
  destruct (node_steps_spec (variables cw) s) as (r & s' & -> & _ & _ & Hret & _).
  by apply Hret.
Qed.

Lemma enforce_node_consistency_returns_witness :
  let P := crossing across3 down2 ["ABC"%string; "XY"%string] in
  fst (enforce_node_consistency P (init_domains P)) = Val tt.
Proof.
  intros P. apply (enforce_node_consistency_returns P (init_domains P)).
  intros v Hv.
  apply elem_of_cons in Hv as [-> | Hv];
    [| apply list_elem_of_singleton in Hv as ->];
    exists ["ABC"%string; "XY"%string]; vm_compute; reflexivity.
Defined.

(** X3: [enforce_node_consistency] only prunes: whether it returns or raises,
    each domain it leaves is a sublist of the one it found, and no word whose
    length is the length of the variable has been removed. *)
Theorem enforce_node_consistency_keeps (cw : Crossword) (s : domains)
    (v : variable) (l : list string) :
  s !! v = Some l →
  ∃ l', snd (enforce_node_consistency cw s) !! v = Some l' ∧
        l' `sublist_of` l ∧
        ∀ w, w ∈ l → String.length w = var_length v → w ∈ l'.
Proof.
  intros Hl. rewrite enforce_node_consistency_steps.
  destruct (node_steps_spec (variables cw) s) as (r & s' & -> & Hpr & _).
  specialize (Hpr v). by rewrite Hl in Hpr.
Qed.

Lemma enforce_node_consistency_keeps_witness :
  let P := crossing across3 down2 ["ABC"%string; "XY"%string] in
  ∃ l', snd (enforce_node_consistency P (init_domains P)) !! down2 = Some l' ∧
        l' `sublist_of` ["ABC"%string; "XY"%string] ∧
        "XY"%string ∈ l'.
Proof.
  intros P.
  destruct (enforce_node_consistency_keeps P (init_domains P) down2
              ["ABC"%string; "XY"%string]) as (l' & Hl' & Hsub & Hkeep).
  { vm_compute. reflexivity. }
  exists l'. split; [exact Hl' |]. split; [exact Hsub |].
  apply Hkeep; [| reflexivity].
  apply list_elem_of_further, list_elem_of_here.
Defined.

(** X4: on domains that are already node consistent,
    [enforce_node_consistency] returns and changes nothing. *)
Theorem enforce_node_consistency_fixed_point (cw : Crossword) (s : domains) :
  (∀ v, v ∈ variables cw → ∃ l, s !! v = Some l ∧ node_consistent v l) →
  enforce_node_consistency cw s = (Val tt, s).
Proof.
  intros Hall. rewrite enforce_node_consistency_steps.
  destruct (node_steps_spec (variables cw) s)
    as (r & s' & -> & _ & _ & Hret & Hfp).
  rewrite Hret, Hfp; [done | done |].
  intros v Hv. destruct (Hall v Hv) as (l & -> & _). by eexists.
Qed.

Lemma enforce_node_consistency_fixed_point_witness :
  let P := crossing across2 down2 ["AB"%string; "AC"%string] in
  enforce_node_consistency P (init_domains P) = (Val tt, init_domains P).
Proof.
  intros P. apply (enforce_node_consistency_fixed_point P (init_domains P)).
  intros v Hv.
  apply elem_of_cons in Hv as [-> | Hv];
    [| apply list_elem_of_singleton in Hv as ->];
    (exists ["AB"%string; "AC"%string]; split; [vm_compute; reflexivity |]);
    repeat constructor.
Defined.

(** The inner loop on a list of distinct words, [pre] being the words
    already passed and kept: the rest is pruned as [node_skip] says. *)
Lemma node_loop_skip var fuel :
  ∀ pre rest s,
    s !! var = Some (pre ++ rest) → NoDup (pre ++ rest) →
    length rest ≤ fuel →
    for_in_domain fuel var (length pre) (node_body var) tt s =
      (Val tt, <[var := pre ++ node_skip (var_length var) rest]> s).
Proof.
  induction fuel as [| fuel IH]; intros pre rest s Hs Hnd Hfuel;
    rewrite for_in_domain_unfold, Hs;
    change (default [] (Some (pre ++ rest))) with (pre ++ rest).
  - destruct rest; [| simpl in Hfuel; lia].
    rewrite lookup_ge_None_2 by (rewrite length_app; simpl; lia).
    simpl. by rewrite insert_id.
  - destruct rest as [| w rest].
    { rewrite lookup_ge_None_2 by (rewrite length_app; simpl; lia).
      simpl. by rewrite insert_id. }
    rewrite list_lookup_middle by done.
    assert (pre ++ w :: rest = (pre ++ [w]) ++ rest) as Hassoc
      by by rewrite <- app_assoc.
    assert (S (length pre) = length (pre ++ [w])) as Hidx
      by (rewrite length_app; simpl; lia).
    simpl in Hfuel.
    destruct (Nat.eqb (String.length w) (var_length var)) eqn:Hlen.
    + assert (node_body var w tt s = (Val tt, s)) as ->
        by (unfold node_body; by rewrite Hlen).
      rewrite Hidx, (IH (pre ++ [w]) rest s); [| by rewrite <- Hassoc.. | lia].
      simpl. rewrite Hlen. by rewrite <- app_assoc.
    + assert (w ∉ pre) as Hnin.
      { apply NoDup_app in Hnd as (_ & Hdisj & _). intros Hin.
        apply (Hdisj w Hin), list_elem_of_here. }
      assert (node_body var w tt s = (Val tt, <[var := pre ++ rest]> s)) as ->.
      { unfold node_body. rewrite Hlen. cbn [negb].
        unfold domain_remove, bind, get_domain.
        by rewrite Hs, remove_first_app. }
      assert (NoDup (pre ++ rest)) as Hnd'.
      { apply NoDup_app in Hnd as (Hp & Hdisj & Hr).
        apply NoDup_cons in Hr as [_ Hr].
        apply NoDup_app. repeat split; [done | | done].
        intros x Hx Hx'. apply (Hdisj x Hx). by apply list_elem_of_further. }
      destruct rest as [| w' rest].
      * rewrite for_in_domain_unfold, lookup_insert_eq.
        change (default [] (Some (pre ++ []))) with (pre ++ []).
        rewrite lookup_ge_None_2 by (rewrite length_app; simpl; lia).
        simpl. by rewrite Hlen.
      * assert (pre ++ w' :: rest = (pre ++ [w']) ++ rest) as Hassoc'
          by by rewrite <- app_assoc.
        assert (S (length pre) = length (pre ++ [w'])) as ->
          by (rewrite length_app; simpl; lia).
        rewrite (IH (pre ++ [w']) rest (<[var := pre ++ w' :: rest]> s));
          [| by rewrite lookup_insert_eq, Hassoc' | by rewrite <- Hassoc'
           | simpl in Hfuel; lia].
        rewrite insert_insert_eq. simpl. rewrite Hlen.
        by rewrite <- app_assoc.
Qed.

Lemma node_steps_skip vars :
  ∀ s v l,
    NoDup vars → (∀ u, u ∈ vars → is_Some (s !! u)) →
    v ∈ vars → s !! v = Some l → NoDup l →
    snd (for_in vars node_step tt s) !! v =
      Some (node_skip (var_length v) l).
Proof.
  induction vars as [| var vars IH]; intros s v l Hnd Hall Hv Hl Hndl;
    [by apply elem_of_nil in Hv |].
  apply NoDup_cons in Hnd as [Hnin Hnd].
  cbn [for_in]. unfold bind.
  destruct (decide (v = var)) as [<- | Hne].
  - assert (node_step v tt s =
            (Val tt, <[v := node_skip (var_length v) l]> s)) as ->.
    { unfold node_step, bind, get_domain. rewrite Hl.
      apply (node_loop_skip v (length l) [] l s); [done | done | lia]. }
    destruct (node_steps_spec vars (<[v := node_skip (var_length v) l]> s))
      as (r & s' & -> & _ & Hoth & _).
    simpl. rewrite Hoth by done. apply lookup_insert_eq.
  - apply elem_of_cons in Hv as [? | Hv]; [done |].
    pose proof (node_step_spec var s) as Hstep.
    destruct (Hall var) as [cur Hcur]; [apply list_elem_of_here |].
    rewrite Hcur in Hstep. destruct Hstep as (cur' & -> & _).
    apply IH; [done | | done | by rewrite lookup_insert_ne | done].
    intros u Hu. destruct (decide (u = var)) as [-> | Hne'].
    + rewrite lookup_insert_eq. by eexists.
    + rewrite lookup_insert_ne by done. apply Hall. by apply list_elem_of_further.
Qed.

(** X5: what [enforce_node_consistency] leaves in a domain of distinct
    words is exactly [node_skip]: each word of another length is removed and
    the word after it is passed over unexamined, so it stays whatever its
    length. *)
Theorem enforce_node_consistency_skip_exact (cw : Crossword) (s : domains)
    (v : variable) (l : list string) :
  NoDup (variables cw) →
  (∀ u, u ∈ variables cw → is_Some (s !! u)) →
  v ∈ variables cw → s !! v = Some l → NoDup l →
  snd (enforce_node_consistency cw s) !! v =
    Some (node_skip (var_length v) l).
Proof.
  intros. rewrite enforce_node_consistency_steps. by apply node_steps_skip.
Qed.

Lemma enforce_node_consistency_skip_exact_witness :
  let P := single across2 ["A"%string; "B"%string; "CD"%string; "E"%string] in
  snd (enforce_node_consistency P (init_domains P)) !! across2 =
    Some ["B"%string; "CD"%string].
Proof.
  intros P.
  apply (enforce_node_consistency_skip_exact P (init_domains P) across2
           ["A"%string; "B"%string; "CD"%string; "E"%string]).
  - apply NoDup_singleton.
  - intros u ->%list_elem_of_singleton. eexists. vm_compute. reflexivity.
  - apply list_elem_of_here.
  - vm_compute. reflexivity.
  - apply (bool_decide_unpack _). vm_compute. reflexivity.
Defined.

(** ** revise, continued *)

Lemma strictly_shrunk_shrunk x s s' : strictly_shrunk x s s' → shrunk x s s'.
Proof. intros ?. by right. Qed.

Lemma strictly_shrunk_trans x s1 s2 s3 :
  strictly_shrunk x s1 s2 → shrunk x s2 s3 → strictly_shrunk x s1 s3.
Proof.
  intros (l & l' & Hl & -> & Hsub & Hlen) [-> | (k & k' & Hk & -> & Hsub' & Hlen')].
  - by exists l, l'.
  - rewrite lookup_insert_eq in Hk. injection Hk as <-.
    exists l, k'. rewrite insert_insert_eq. repeat split; [done | | lia].
    by etrans.
Qed.

Lemma remove_first_perm w l l' : remove_first w l = Some l' → l ≡ₚ w :: l'.
Proof.
  revert l'. induction l as [| a l IH]; intros l'; simpl; [done |].
  destruct (decide (a = w)) as [-> | Hne]; [by intros [= ->] |].
  destruct (remove_first w l) as [r |]; [| done].
  intros [= <-]. rewrite (IH r eq_refl). apply Permutation_swap.
Qed.

Lemma domain_remove_val x w s s' :
  domain_remove x w s = (Val tt, s') →
  ∃ l l', s !! x = Some l ∧ remove_first w l = Some l' ∧ s' = <[x := l']> s.
Proof.
  destruct (domain_remove_cases x w s)
    as [(l & l' & Hl & Hr & ->) | (e & ->)]; [| done].
  intros [= <-]. by exists l, l'.
Qed.

Lemma domain_remove_strict x w s s' :
  domain_remove x w s = (Val tt, s') → strictly_shrunk x s s'.
Proof.
  intros (l & l' & Hl & Hr & ->)%domain_remove_val.
  destruct (remove_first_Some _ _ _ Hr). exists l, l'.
  repeat split; [done.. | lia].
Qed.

Lemma conflict_scan_true_inv ox oy wx ly :
  conflict_scan ox oy wx ly = Val true → ¬ supported ox oy wx ly.
Proof.
  induction ly as [| wy ly IH]; simpl.
  - intros _ (wy & Hin & _). by apply elem_of_nil in Hin.
  - unfold str_index.
    destruct (String.get ox wx) as [cx |] eqn:Hx; [| done].
    destruct (String.get oy wy) as [cy |] eqn:Hy; [| done].
    destruct (bool_decide (cx = cy) && negb (bool_decide (wx = wy))) eqn:Hb;
      [done |].
    intros Hscan (wy' & Hin & (c & Hc1 & Hc2) & Hne).
    apply elem_of_cons in Hin as [-> | Hin].
    + rewrite Hx in Hc1. rewrite Hy in Hc2.
      injection Hc1 as ->. injection Hc2 as ->.
      by rewrite bool_decide_eq_true_2, (bool_decide_eq_false_2 _ Hne) in Hb.
    + apply (IH Hscan). exists wy'. split; [done |]. split; [by exists c | done].
Qed.

Lemma for_in_domain_shrunk {A} x (body : string -> A -> M A) :
  body_ok x body →
  ∀ fuel idx acc s, shrunk x s (snd (for_in_domain fuel x idx body acc s)).
Proof.
  intros Hbody. induction fuel as [| fuel IH]; intros idx acc s;
    rewrite for_in_domain_unfold;
    destruct (default [] (s !! x) !! idx) as [w |];
    try apply shrunk_refl.
  destruct (Hbody w acc s) as [_ Hsh].
  destruct (body w acc s) as [[acc' | e |] s1]; simpl in *; [| done..].
  eapply shrunk_trans; [done | apply IH].
Qed.

Section ReviseMore.

Variable cw : Crossword.

(** The value of [revision] at the end of the scan tells whether a word was
    removed. *)
Lemma revise_loop_result x y ox oy fuel :
  ∀ idx acc s b s',
    for_in_domain fuel x idx (revise_body x y ox oy) acc s = (Val b, s') →
    (b = acc ∧ s' = s) ∨ (b = true ∧ strictly_shrunk x s s').
Proof.
  induction fuel as [| fuel IH]; intros idx acc s b s';
    rewrite for_in_domain_unfold;
    destruct (default [] (s !! x) !! idx) as [w |] eqn:Hw;
    try done; try (intros [= <- <-]; by left).
  destruct (revise_body x y ox oy w acc s) as [[acc' | e |] s1] eqn:Hbody;
    [| done..].
  intros Hloop.
  assert ((acc' = acc ∧ s1 = s) ∨ (acc' = true ∧ strictly_shrunk x s s1))
    as Hstep.
  { unfold revise_body, bind, get_domain, lift in Hbody.
    destruct (s !! y) as [ly |]; [| done].
    destruct (conflict_scan ox oy w ly) as [[] | e |]; [| | done..].
    - destruct (domain_remove x w s) as [[[] | e |] s2] eqn:Hrem; [| done..].
      injection Hbody as <- <-. right.
      split; [done | by eapply domain_remove_strict].
    - injection Hbody as <- <-. by left. }
  destruct Hstep as [[-> ->] | [-> Hstrict]]; [by eapply IH |].
  right.
  pose proof (for_in_domain_shrunk x _ (revise_body_ok x y ox oy) fuel (S idx)
                true s1) as Hsh.
  rewrite Hloop in Hsh. simpl in Hsh.
  apply IH in Hloop as [[-> _] | [-> _]];
    (split; [done | by eapply strictly_shrunk_trans]).
Qed.

Lemma revise_result x y s b s' :
  revise cw x y s = (Val b, s') →
  if b then strictly_shrunk x s s' else s' = s.
Proof.
  unfold revise.
  destruct (negb _); [by intros [= <- <-] |].
  destruct (overlaps cw x y) as [[ox oy] |].
  - unfold bind, get_domain.
    destruct (s !! x) as [lx |]; [| done].
    intros [[-> ->] | [-> Hstrict]]%revise_loop_result; done.
  - unfold bind, get_domain.
    destruct (s !! y) as [ly |]; [| done].
    destruct (Nat.eqb _ _); [| by intros [= <- <-]].
    destruct ly as [| w ly]; [done |].
    destruct (s !! x) as [lx |]; [| done].
    destruct (bool_decide _); [| by intros [= <- <-]].
    destruct (domain_remove x w s) as [[[] | e |] s2] eqn:Hrem; [| done..].
    intros [= <- <-]. by eapply domain_remove_strict.
Qed.

(** A word with a support in the domain of another variable [y] survives
    the scan. *)
Lemma revise_loop_keeps x y ox oy ly w0 fuel :
  x ≠ y → supported ox oy w0 ly →
  ∀ idx acc s lx,
    s !! x = Some lx → s !! y = Some ly → w0 ∈ lx →
    ∃ lx',
      snd (for_in_domain fuel x idx (revise_body x y ox oy) acc s) !! x
        = Some lx' ∧ w0 ∈ lx'.
Proof.
  intros Hxy Hsup.
  induction fuel as [| fuel IH]; intros idx acc s lx Hx Hy Hin;
    rewrite for_in_domain_unfold;
    destruct (default [] (s !! x) !! idx) as [w |] eqn:Hw;
    try (by exists lx).
  unfold revise_body at 1. unfold bind, get_domain, lift. rewrite Hy.
  destruct (conflict_scan ox oy w ly) as [[] | e |] eqn:Hscan;
    try (by exists lx).
  - destruct (domain_remove_cases x w s)
      as [(l & l' & Hl & Hr & ->) | (e & ->)]; [| by exists lx].
    rewrite Hx in Hl. injection Hl as <-. unfold ret.
    apply (IH _ _ _ l'); [apply lookup_insert_eq | by rewrite lookup_insert_ne |].
    eapply remove_first_other; [done | | done].
    intros ->. by apply conflict_scan_true_inv in Hscan.
  - by apply (IH _ _ _ lx).
Qed.

End ReviseMore.

(** X6: the value [revise] returns tells whether it changed a domain: after
    [False] all domains are as before; after [True] the domain of [x], and
    no other, has been replaced by a strictly shorter sublist. *)
Theorem revise_reports_revision (cw : Crossword) (x y : variable)
    (s s' : domains) (b : bool) :
  revise cw x y s = (Val b, s') →
  (b = false → s' = s) ∧
  (b = true → ∃ l l', s !! x = Some l ∧ s' = <[x := l']> s ∧
                      l' `sublist_of` l ∧ length l' < length l).
Proof.
  intros Hrev%revise_result. destruct b; split; done.
Qed.

Lemma revise_reports_revision_witness :
  let P := crossing across2 down2 ["AB"%string; "CD"%string] in
  ∃ l l', init_domains P !! across2 = Some l ∧
          snd (revise P across2 down2 (init_domains P)) =
            <[across2 := l']> (init_domains P) ∧
          l' `sublist_of` l ∧ length l' < length l.
Proof.
  intros P.
  assert (revise P across2 down2 (init_domains P) =
          (Val true, snd (revise P across2 down2 (init_domains P)))) as Hrev
    by (vm_compute; reflexivity).
  exact (proj2 (revise_reports_revision P across2 down2 _ _ true Hrev) eq_refl).
Defined.

(** X7: [revise(x, y)] on two different variables never removes a word of
    the domain of [x] that has a support in the domain of [y]: such a word is
    still in the domain of [x] afterwards, whether [revise] returns or
    raises. *)
Theorem revise_keeps_supported (cw : Crossword) (x y : variable) (s : domains)
    (ox oy : nat) (lx ly : list string) (w : string) :
  x ≠ y → overlaps cw x y = Some (ox, oy) →
  s !! x = Some lx → s !! y = Some ly →
  w ∈ lx → supported ox oy w ly →
  ∃ lx', snd (revise cw x y s) !! x = Some lx' ∧ w ∈ lx'.
Proof.
  intros Hxy Hov Hx Hy Hin Hsup. unfold revise.
  destruct (negb _); [by exists lx |].
  rewrite Hov. unfold bind, get_domain. rewrite Hx.
  by eapply revise_loop_keeps.
Qed.

Lemma revise_keeps_supported_witness :
  let P := crossing across2 down2 ["AB"%string; "AC"%string; "XY"%string] in
  ∃ lx', snd (revise P across2 down2 (init_domains P)) !! across2 = Some lx' ∧
         "AC"%string ∈ lx'.
Proof.
  intros P.
  apply (revise_keeps_supported P across2 down2 (init_domains P) 0 0
           ["AB"%string; "AC"%string; "XY"%string]
           ["AB"%string; "AC"%string; "XY"%string] "AC"%string).
  - discriminate.
  - reflexivity.
  - vm_compute. reflexivity.
  - vm_compute. reflexivity.
  - apply list_elem_of_further, list_elem_of_here.
  - exists "AB"%string. split; [apply list_elem_of_here |].
    split; [by exists "A"%char | discriminate].
Defined.

(** X8: the rule for a pair without overlap (and of equal length): when the
    domain of [y] is the single word [w] and [w] is in the domain of [x],
    [revise] removes one occurrence of [w] from the domain of [x] and
    returns [True]; in every other case it returns [False] and changes
    nothing. *)
Theorem revise_no_overlap (cw : Crossword) (x y : variable) (s : domains)
    (lx ly : list string) :
  var_length x = var_length y → overlaps cw x y = None →
  s !! x = Some lx → s !! y = Some ly →
  (∀ w, ly = [w] → w ∈ lx →
     ∃ l', revise cw x y s = (Val true, <[x := l']> s) ∧ lx ≡ₚ w :: l') ∧
  ((∀ w, ly = [w] → w ∉ lx) → revise cw x y s = (Val false, s)).
Proof.
  intros Heq Hov Hx Hy. unfold revise.
  rewrite Heq, Nat.eqb_refl, Hov. cbn [negb].
  unfold bind, get_domain. rewrite Hy. split.
  - intros w -> Hin. simpl. rewrite Hx.
    rewrite bool_decide_eq_true_2 by done.
    destruct (remove_first_elem w lx Hin) as [l' Hl'].
    unfold domain_remove, bind, get_domain. rewrite Hx, Hl'.
    exists l'. split; [done | by apply remove_first_perm].
  - intros Hnot. destruct ly as [| w [| w' ly]]; [done | | done].
    simpl. rewrite Hx. by rewrite bool_decide_eq_false_2 by by apply Hnot.
Qed.

Lemma revise_no_overlap_witness :
  let P := apart across2 across2_below ["AB"%string; "CD"%string] in
  let s := <[across2_below := ["CD"%string]]> (init_domains P) in
  ∃ l', revise P across2 across2_below s = (Val true, <[across2 := l']> s) ∧
        ["AB"%string; "CD"%string] ≡ₚ "CD"%string :: l'.
Proof.
  intros P s.
  refine (proj1 (revise_no_overlap P across2 across2_below s
                   ["AB"%string; "CD"%string] ["CD"%string]
                   eq_refl eq_refl _ _) "CD"%string eq_refl _).
  - vm_compute. reflexivity.
  - vm_compute. reflexivity.
  - apply list_elem_of_further, list_elem_of_here.
Defined.

Lemma string_get_None (w : string) :
  ∀ k, String.length w ≤ k → String.get k w = None.
Proof.
  induction w as [| c w IH]; intros [| k] Hk; simpl in *; try done; try lia.
  apply IH. lia.
Qed.

(** X9: [revise] raises [IndexError], changing nothing, when the overlap
    offset is beyond the end of the first word it compares: a first word of
    the domain of [x] shorter than the offset in [x], or a first word of the
    domain of [y] shorter than the offset in [y]. *)
Theorem revise_index_error (cw : Crossword) (x y : variable) (s : domains)
    (ox oy : nat) (w wy : string) (lx ly : list string) :
  var_length x = var_length y → overlaps cw x y = Some (ox, oy) →
  s !! x = Some (w :: lx) → s !! y = Some (wy :: ly) →
  String.length w ≤ ox ∨ String.length wy ≤ oy →
  revise cw x y s = (Exn IndexError, s).
Proof.
  intros Heq Hov Hx Hy Hshort. unfold revise.
  rewrite Heq, Nat.eqb_refl, Hov. cbn [negb].
  unfold bind at 1, get_domain at 1. rewrite Hx.
  rewrite for_in_domain_unfold, Hx. simpl.
  unfold revise_body, bind, get_domain, lift. rewrite Hy. simpl.
  unfold str_index.
  destruct (String.get ox w) as [cx |] eqn:Hcx; [| done].
  destruct Hshort as [Hs | Hs].
  - by rewrite string_get_None in Hcx.
  - by rewrite (string_get_None wy).
Qed.

Lemma revise_index_error_witness :
  let P := make_crossword [across2; down2] ["A"%string; "AB"%string]
             [(across2, down2, (1, 0)); (down2, across2, (0, 1))] in
  revise P across2 down2 (init_domains P) = (Exn IndexError, init_domains P).
Proof.
  intros P.
  apply (revise_index_error P across2 down2 (init_domains P) 1 0
           "A"%string "A"%string ["AB"%string] ["AB"%string]).
  - reflexivity.
  - reflexivity.
  - vm_compute. reflexivity.
  - vm_compute. reflexivity.
  - left. simpl. lia.
Defined.

(** ** ac3, continued *)

Section Ac3More.

Variable cw : Crossword.

Lemma ac3_loop_true arcs :
  ∀ fuel s s',
    ac3_loop cw fuel arcs s = (Val true, s') →
    s' = s ∧ ∀ x y, (x, y) ∈ arcs → revise cw x y s = (Val false, s).
Proof.
  induction arcs as [| [x y] arcs IH]; intros fuel s s'.
  - rewrite ac3_loop_nil. intros [= <-]. split; [done |].
    intros x y Hin. by apply elem_of_nil in Hin.
  - destruct fuel as [| fuel]; [done |]. rewrite ac3_loop_cons.
    destruct (revise cw x y s) as [[[] | e |] s1] eqn:Hrev; [| | done..].
    + by destruct (s1 !! x) as [[| w l] |].
    + apply revise_result in Hrev as Hs1. subst s1.
      intros [-> Hall]%IH. split; [done |].
      intros x' y' [[= -> ->] | Hin]%elem_of_cons; [done | by apply Hall].
Qed.

Lemma ac3_loop_true_intro arcs :
  ∀ k s,
    (∀ x y, (x, y) ∈ arcs → revise cw x y s = (Val false, s)) →
    ac3_loop cw (length arcs + k) arcs s = (Val true, s).
Proof.
  induction arcs as [| [x y] arcs IH]; intros k s Hall;
    [apply ac3_loop_nil |].
  change (length ((x, y) :: arcs) + k) with (S (length arcs + k)).
  rewrite ac3_loop_cons, (Hall x y) by apply list_elem_of_here.
  apply IH. intros x' y' Hin. apply Hall. by apply list_elem_of_further.
Qed.

Lemma ac3_loop_false arcs :
  ∀ fuel s s',
    ac3_loop cw fuel arcs s = (Val false, s') →
    ∃ x y, (x, y) ∈ arcs ∧ s' !! x = Some [].
Proof.
  induction arcs as [| [x y] arcs IH]; intros fuel s s'.
  - by rewrite ac3_loop_nil.
  - destruct fuel as [| fuel]; [done |]. rewrite ac3_loop_cons.
    destruct (revise cw x y s) as [[[] | e |] s1] eqn:Hrev; [| | done..].
    + destruct (s1 !! x) as [[| w l] |] eqn:Hx; [| done..].
      intros [= <-]. exists x, y. split; [apply list_elem_of_here | done].
    + intros (x' & y' & Hin & Hx')%IH.
      exists x', y'. split; [by apply list_elem_of_further | done].
Qed.

Lemma revise_false_arc_consistent x y s s' :
  revise cw x y s = (Val false, s') →
  var_length x = var_length y → is_Some (overlaps cw x y) →
  arc_consistent cw x y s.
Proof.
  intros Hrev Heq [[ox oy] Hov]. unfold revise in Hrev.
  rewrite Heq, Nat.eqb_refl, Hov in Hrev. cbn [negb] in Hrev.
  unfold bind, get_domain in Hrev.
  destruct (s !! x) as [lx |] eqn:Hx; [| done].
  apply revise_loop_false in Hrev as (_ & -> & Hsup).
  intros lx0 wx Hx0 (k & Hk)%list_elem_of_lookup.
  destruct (Hsup k wx) as (ly & Hy & wy & Hwy & Hag & _);
    [lia | by rewrite Hx0 |].
  exists ly, wy. by rewrite Hov.
Qed.

End Ac3More.

(** X10: [ac3] returns [True] exactly when no arc of its worklist needs a
    revision: every [revise] of such an arc returns [False], and the domains
    are left untouched.  Hence a second run after a successful one removes
    nothing and succeeds again. *)
Theorem ac3_true_iff (cw : Crossword)
    (arcs : option (list (variable * variable))) (s s' : domains) (k : nat) :
  let worklist := match arcs with Some a => a | None => all_arcs cw end in
  ac3 cw (length worklist + k) arcs s = (Val true, s') ↔
  s' = s ∧ ∀ x y, (x, y) ∈ worklist → revise cw x y s = (Val false, s).
Proof.
  intros worklist. unfold ac3. fold worklist. split.
  - apply ac3_loop_true.
  - intros [-> Hall]. by apply ac3_loop_true_intro.
Qed.

(** X11: when [ac3] returns [False], the domain of the first variable of some
    arc of the worklist is empty. *)
Theorem ac3_false_empty_domain (cw : Crossword) (fuel : nat)
    (arcs : option (list (variable * variable))) (s s' : domains) :
  ac3 cw fuel arcs s = (Val false, s') →
  ∃ x y, (x, y) ∈ match arcs with Some a => a | None => all_arcs cw end ∧
         s' !! x = Some [].
Proof. apply ac3_loop_false. Qed.

Lemma ac3_false_empty_domain_witness :
  let P := crossing across2 down2 ["AB"%string] in
  ∃ x y, (x, y) ∈ all_arcs P ∧
         snd (ac3 P 2 None (init_domains P)) !! x = Some [].
Proof.
  intros P.
  apply (ac3_false_empty_domain P 2 None (init_domains P)).
  vm_compute. reflexivity.
Defined.

(** X12: when [ac3] returns [True], every arc of its worklist whose variables
    have equal length and a defined overlap is arc consistent in the domains
    it leaves. *)
Theorem ac3_true_arc_consistent (cw : Crossword) (fuel : nat)
    (arcs : option (list (variable * variable))) (s s' : domains)
    (x y : variable) :
  ac3 cw fuel arcs s = (Val true, s') →
  (x, y) ∈ match arcs with Some a => a | None => all_arcs cw end →
  var_length x = var_length y → is_Some (overlaps cw x y) →
  arc_consistent cw x y s'.
Proof.
  intros [-> Hall]%ac3_loop_true Hin Heq Hov.
  eapply revise_false_arc_consistent; [by apply Hall | done..].
Qed.

Lemma ac3_true_arc_consistent_witness :
  let P := crossing across2 down2 ["AB"%string; "AC"%string] in
  arc_consistent P across2 down2 (init_domains P).
Proof.
  intros P.
  apply (ac3_true_arc_consistent P 2 None (init_domains P) (init_domains P)
           across2 down2).
  - vm_compute. reflexivity.
  - apply list_elem_of_here.
  - reflexivity.
  - eexists. reflexivity.
Defined.

(** ** consistent, continued *)

Lemma consistent_neighbors_true cw a var w ns :
  consistent_neighbors cw a var w ns = Val true ↔
  ∀ n, n ∈ ns →
    ∃ ov on word wn,
      overlaps cw var n = Some (ov, on) ∧ w = Some word ∧
      assignment_get a n = Val (Some wn) ∧ agree ov on word wn.
Proof.
  induction ns as [| n ns IH]; simpl.
  { split; [| done]. intros _ n Hin. by apply elem_of_nil in Hin. }
  assert (∀ P : variable → Prop,
            (∀ m, m ∈ n :: ns → P m) ↔ P n ∧ ∀ m, m ∈ ns → P m) as Hcons.
  { intros P. split.
    - intros H. split; [apply H, list_elem_of_here |].
      intros m Hm. by apply H, list_elem_of_further.
    - intros [Hn Hns] m [-> | Hm]%elem_of_cons; auto. }
  rewrite Hcons, <- IH. clear Hcons IH.
  destruct (overlaps cw var n) as [[ov on] |];
    [| split; [done | intros [(? & ? & ? & ? & ? & _) _]; done]].
  destruct w as [word |]; simpl;
    [| split; [done | intros [(? & ? & ? & ? & _ & ? & _) _]; done]].
  unfold str_index.
  destruct (String.get ov word) as [c |] eqn:Hc; simpl;
    [| split; [done |];
       intros [(? & ? & ? & ? & ? & ? & _ & ? & ? & _) _]; simplify_eq].
  destruct (assignment_get a n) as [[wn |] | e |] eqn:Hn; simpl;
    [| split; [done | intros [(? & ? & ? & ? & _ & _ & ? & _) _]; done]..].
  unfold str_index.
  destruct (String.get on wn) as [c' |] eqn:Hc'; simpl;
    [| split; [done |];
       intros [(? & ? & ? & ? & ? & _ & ? & ? & _ & ?) _]; simplify_eq].
  destruct (decide (c = c')) as [<- | Hne].
  - rewrite bool_decide_eq_true_2 by done. split.
    + intros Hrest. split; [| done].
      exists ov, on, word, wn. repeat split; by exists c.
    + by intros [_ Hrest].
  - rewrite bool_decide_eq_false_2 by done. split; [done |].
    intros [(? & ? & ? & ? & ? & ? & ? & ? & ? & ?) _]. simplify_eq.
Qed.

Lemma consistent_from_true cw a rest :
  consistent_from cw a rest = Val true ↔
  ∀ v w, (v, w) ∈ rest →
    ∃ word, w = Some word ∧ String.length word = var_length v ∧
      ∀ n, n ∈ neighbors cw v →
        ∃ ov on wn, overlaps cw v n = Some (ov, on) ∧
                    assignment_get a n = Val (Some wn) ∧ agree ov on word wn.
Proof.
  induction rest as [| [v w] rest IH]; simpl.
  { split; [| done]. intros _ v w Hin. by apply elem_of_nil in Hin. }
  assert (∀ P : variable → option string → Prop,
            (∀ v' w', (v', w') ∈ (v, w) :: rest → P v' w') ↔
            P v w ∧ ∀ v' w', (v', w') ∈ rest → P v' w') as Hcons.
  { intros P. split.
    - intros H. split; [apply H, list_elem_of_here |].
      intros v' w' Hm. by apply H, list_elem_of_further.
    - intros [Hn Hns] v' w' [[= -> ->] | Hm]%elem_of_cons; auto. }
  rewrite Hcons, <- IH. clear Hcons IH.
  destruct w as [word |]; simpl;
    [| split; [done | intros [(? & ? & _) _]; done]].
  destruct (Nat.eqb (String.length word) (var_length v)) eqn:Hlen; simpl.
  2: { apply Nat.eqb_neq in Hlen. split; [done |].
       intros [(? & ? & ? & _) _]. simplify_eq. }
  apply Nat.eqb_eq in Hlen.
  pose proof (consistent_neighbors_true cw a v (Some word) (neighbors cw v))
    as Hnb.
  assert ((∀ n, n ∈ neighbors cw v →
             ∃ ov on wn, overlaps cw v n = Some (ov, on) ∧
                         assignment_get a n = Val (Some wn) ∧
                         agree ov on word wn) ↔
          consistent_neighbors cw a v (Some word) (neighbors cw v) = Val true)
    as Hnb'.
  { rewrite Hnb. split.
    - intros Hall n Hn. destruct (Hall n Hn) as (ov & on & wn & ? & ? & ?).
      by exists ov, on, word, wn.
    - intros Hall n Hn.
      destruct (Hall n Hn) as (ov & on & ? & wn & ? & ? & ? & ?).
      simplify_eq. by exists ov, on, wn. }
  clear Hnb.
  destruct (consistent_neighbors cw a v (Some word) (neighbors cw v))
    as [[] | e |]; simpl.
  - split.
    + intros Hrest. split; [| done]. exists word. repeat split; [done |].
      by apply Hnb'.
    + by intros [_ Hrest].
  - split; [done |]. intros [(? & ? & _ & Hall) _]. simplify_eq.
    by apply Hnb' in Hall.
  - split; [done |]. intros [(? & ? & _ & Hall) _]. simplify_eq.
    by apply Hnb' in Hall.
  - split; [done |]. intros [(? & ? & _ & Hall) _]. simplify_eq.
    by apply Hnb' in Hall.
Qed.

(** X13: [consistent] returns [True] exactly for the assignments in which
    every entry holds a word of the length of its variable and every neighbor
    of every assigned variable is itself assigned a word, with a defined
    overlap at which the two words carry the same character.  On any other
    assignment it returns [False] or raises. *)
Theorem consistent_true_iff (cw : Crossword) (a : assignment) :
  consistent cw a = Val true ↔
  ∀ v w, (v, w) ∈ a →
    ∃ word, w = Some word ∧ String.length word = var_length v ∧
      ∀ n, n ∈ neighbors cw v →
        ∃ ov on wn, overlaps cw v n = Some (ov, on) ∧
                    assignment_get a n = Val (Some wn) ∧ agree ov on word wn.
Proof. apply consistent_from_true. Qed.

(** ** select_unassigned_variable, continued *)

Lemma select_loop_spec (a : assignment) (s : domains) (Q : variable → Prop)
    (vars : list variable) :
  (∀ v, v ∈ vars → in_assignment v a = false → s !! v = Some [] → Q v) →
  ∀ eq0, from_option Q True eq0 →
    ∃ r, for_in vars (select_body a) (None, eq0, 0) s = (r, s) ∧
         ∀ st, r = Val st →
           ∃ eq1, st = (None, eq1, 0) ∧ from_option Q True eq1.
Proof.
  induction vars as [| var vars IH]; intros HQ eq0 Heq0; cbn [for_in].
  { exists (Val (None, eq0, 0)). split; [done |].
    intros st [= <-]. by exists eq0. }
  assert (∃ r1, select_body a var (None, eq0, 0) s = (r1, s) ∧
            ∀ st, r1 = Val st →
              ∃ eq1, st = (None, eq1, 0) ∧ from_option Q True eq1) as Hbody.
  { unfold select_body.
    destruct (in_assignment var a) eqn:Hin.
    { eexists. split; [done |]. intros st [= <-]. by exists eq0. }
    unfold bind, get_domain.
    destruct (s !! var) as [l |] eqn:Hl; [| by eexists].
    destruct l as [| w l]; simpl.
    - eexists. split; [done |]. intros st [= <-]. exists (Some var).
      split; [done |]. simpl. apply HQ; [apply list_elem_of_here | done..].
    - eexists. split; [done |]. intros st [= <-]. by exists eq0. }
  destruct Hbody as (r1 & Hb & Hst). unfold bind. rewrite Hb.
  destruct r1 as [st | e |]; [| by eexists..].
  destruct (Hst st eq_refl) as (eq1 & -> & Heq1).
  apply IH; [| done]. intros v Hv. apply HQ. by apply list_elem_of_further.
Qed.

(** X14: [select_unassigned_variable] only reads the domains, and the only
    variables it ever returns are variables of the puzzle that are not in the
    assignment and whose domain is empty. *)
Theorem select_unassigned_variable_result (cw : Crossword) (a : assignment)
    (s : domains) :
  snd (select_unassigned_variable cw a s) = s ∧
  ∀ v, fst (select_unassigned_variable cw a s) = Val (Some v) →
       v ∈ variables cw ∧ in_assignment v a = false ∧ s !! v = Some [].
Proof.
  unfold select_unassigned_variable, bind.
  destruct (select_loop_spec a s
              (fun v => v ∈ variables cw ∧ in_assignment v a = false ∧
                        s !! v = Some [])
              (variables cw)) with (eq0 := @None variable)
    as (r & -> & Hst); [done | done |].
  destruct r as [st | e |]; [| by split..].
  destruct (Hst st eq_refl) as (eq1 & -> & Heq1).
  destruct eq1 as [e |]; [| by split].
  unfold lift. simpl.
  destruct (neighbors_None cw) as [nl | e' |]; [| by split..].
  destruct (length nl <? length (neighbors cw e)); [| by split].
  split; [done |]. by intros v [= <-].
Qed.

Lemma select_unassigned_variable_result_witness :
  let P := crossing across2 down2 [] in
  fst (select_unassigned_variable P [] (init_domains P)) = Val (Some down2) ∧
  init_domains P !! down2 = Some [].
Proof.
  intros P.
  assert (fst (select_unassigned_variable P [] (init_domains P)) =
          Val (Some down2)) as Hsel by (vm_compute; reflexivity).
  split; [exact Hsel |].
  exact (proj2 (proj2 (proj2 (select_unassigned_variable_result P []
                                (init_domains P)) down2 Hsel))).
Defined.

(** ** order_domain_values *)

Lemma string_get_Some (w : string) :
  ∀ k, k < String.length w → is_Some (String.get k w).
Proof.
  induction w as [| c w IH]; intros [| k] Hk; simpl in *; try lia.
  - by eexists.
  - apply IH. lia.
Qed.

Lemma dict_set_entries d k v e :
  e ∈ dict_set d k v → e = (k, v) ∨ e ∈ d.
Proof.
  induction d as [| [k' v'] d IH]; simpl.
  - intros ->%list_elem_of_singleton. by left.
  - destruct (decide (k' = k)) as [-> | Hne].
    + intros [-> | Hin]%elem_of_cons; [by left |].
      right. by apply list_elem_of_further.
    + intros [-> | Hin]%elem_of_cons; [right; apply list_elem_of_here |].
      destruct (IH Hin) as [-> | Hd]; [by left |].
      right. by apply list_elem_of_further.
Qed.

Lemma dict_set_keys d k v :
  map fst (dict_set d k v) =
    if bool_decide (k ∈ map fst d) then map fst d else map fst d ++ [k].
Proof.
  induction d as [| [k' v'] d IH]; simpl; [done |].
  destruct (decide (k' = k)) as [-> | Hne]; simpl.
  - by rewrite bool_decide_eq_true_2 by apply list_elem_of_here.
  - rewrite IH. destruct (bool_decide (k ∈ map fst d)) eqn:Hin.
    + apply bool_decide_eq_true in Hin.
      by rewrite bool_decide_eq_true_2 by by apply list_elem_of_further.
    + apply bool_decide_eq_false in Hin.
      rewrite bool_decide_eq_false_2; [done |].
      intros [? | ?]%elem_of_cons; congruence.
Qed.

Lemma dict_set_fresh d k v :
  k ∉ map fst d → dict_set d k v = d ++ [(k, v)].
Proof.
  induction d as [| [k' v'] d IH]; simpl; [done |].
  intros Hnin. rewrite decide_False.
  - rewrite IH; [done |]. intros ?. apply Hnin. by apply list_elem_of_further.
  - intros ->. apply Hnin, list_elem_of_here.
Qed.

Lemma fill_dict_keys f l :
  ∀ d, NoDup (map fst d) →
    NoDup (map fst (fill_dict f d l)) ∧
    ∀ k, k ∈ map fst (fill_dict f d l) ↔ k ∈ map fst d ∨ k ∈ l.
Proof.
  induction l as [| w l IH]; intros d Hnd; simpl.
  { split; [done |]. intros k. rewrite elem_of_nil. tauto. }
  destruct (IH (dict_set d w (f w))) as [Hnd' Hin'].
  - rewrite dict_set_keys. case_bool_decide; [done |].
    apply NoDup_app. repeat split; [done | | apply NoDup_singleton].
    intros k Hk ->%list_elem_of_singleton. done.
  - split; [done |]. intros k. rewrite Hin', dict_set_keys, elem_of_cons.
    case_bool_decide as Hw.
    + split; [tauto |]. intros [? | [-> | ?]]; tauto.
    + rewrite elem_of_app, list_elem_of_singleton. tauto.
Qed.

Lemma fill_dict_values f l :
  ∀ d, Forall (fun e => snd e = f (fst e)) d →
    Forall (fun e => snd e = f (fst e)) (fill_dict f d l).
Proof.
  induction l as [| w l IH]; intros d Hd; simpl; [done |].
  apply IH. rewrite Forall_forall in *.
  intros e [-> | He]%dict_set_entries; [done | by apply Hd].
Qed.

Lemma fill_dict_fresh f l :
  ∀ d, NoDup l → (∀ k, k ∈ l → k ∉ map fst d) →
    fill_dict f d l = d ++ map (fun w => (w, f w)) l.
Proof.
  induction l as [| w l IH]; intros d Hnd Hdisj; simpl.
  { by rewrite app_nil_r. }
  apply NoDup_cons in Hnd as [Hw Hnd].
  rewrite dict_set_fresh by apply Hdisj, list_elem_of_here.
  rewrite IH; [by rewrite <- app_assoc | done |].
  intros k Hk. rewrite map_app, elem_of_app. simpl.
  rewrite list_elem_of_singleton. intros [Hin | ->]; [| done].
  by apply (Hdisj k); [apply list_elem_of_further |].
Qed.

Lemma insert_by_count_perm e l : insert_by_count e l ≡ₚ e :: l.
Proof.
  induction l as [| e' l IH]; simpl; [done |].
  destruct (snd e <=? snd e'); [done |].
  rewrite IH. apply Permutation_swap.
Qed.

Lemma sort_by_count_perm l : sort_by_count l ≡ₚ l.
Proof.
  induction l as [| e l IH]; simpl; [done |].
  by rewrite insert_by_count_perm, IH.
Qed.

Lemma insert_by_count_sorted e l :
  StronglySorted (fun e1 e2 => snd e1 ≤ snd e2) l →
  StronglySorted (fun e1 e2 => snd e1 ≤ snd e2) (insert_by_count e l).
Proof.
  induction l as [| e' l IH]; intros Hl; simpl.
  { repeat constructor. }
  apply StronglySorted_inv in Hl as [Hl Hall].
  destruct (snd e <=? snd e') eqn:Hle.
  - apply Nat.leb_le in Hle. constructor.
    + by constructor.
    + constructor; [done |].
      eapply Forall_impl; [done |]. intros e2 ?. simpl in *. lia.
  - apply Nat.leb_gt in Hle. constructor; [by apply IH |].
    rewrite insert_by_count_perm. constructor; [lia | done].
Qed.

Lemma sort_by_count_sorted l :
  StronglySorted (fun e1 e2 => snd e1 ≤ snd e2) (sort_by_count l).
Proof.
  induction l as [| e l IH]; simpl; [constructor |].
  by apply insert_by_count_sorted.
Qed.

(** A list that is in order already is returned as it is: entries of equal
    count keep their places. *)
Lemma sort_by_count_id l :
  StronglySorted (fun e1 e2 => snd e1 ≤ snd e2) l → sort_by_count l = l.
Proof.
  induction l as [| e l IH]; intros Hl; simpl; [done |].
  apply StronglySorted_inv in Hl as [Hl Hall]. rewrite (IH Hl).
  destruct l as [| e' l]; simpl; [done |].
  apply Forall_cons in Hall as [Hle _].
  by rewrite (proj2 (Nat.leb_le _ _) Hle).
Qed.

Lemma sorted_keys_sorted (f : string → nat) d :
  Forall (fun e => snd e = f (fst e)) d →
  StronglySorted (fun w1 w2 => f w1 ≤ f w2) (sorted_keys d).
Proof.
  intros Hd. unfold sorted_keys.
  assert (Forall (fun e => snd e = f (fst e)) (sort_by_count d)) as Hs
    by by rewrite sort_by_count_perm.
  pose proof (sort_by_count_sorted d) as Hsorted.
  induction Hsorted as [| e l Hl IH Hall]; simpl; [constructor |].
  apply Forall_cons in Hs as [He Hs]. constructor; [by apply IH |].
  rewrite Forall_forall in Hall, Hs. apply Forall_forall.
  intros w (e' & -> & Hin)%list_elem_of_fmap.
  rewrite <- He, <- (Hs e' Hin). by apply Hall.
Qed.

Lemma ruled_out_sum cw a s var w :
  ruled_out cw a s var w =
    sum_list (map (neighbor_conflicts cw a s var w) (neighbors cw var)).
Proof. reflexivity. Qed.

Section OrderDomainValues.

Variable cw : Crossword.

Lemma count_body_eq w ov on wn acc s :
  count_body w ov on wn acc s =
    match String.get ov w, String.get on wn with
    | Some cx, Some cy =>
        (Val (if bool_decide (cx = cy) then acc else S acc), s)
    | _, _ => (Exn IndexError, s)
    end.
Proof.
  unfold count_body, bind, lift, str_index.
  destruct (String.get ov w); [| done].
  destruct (String.get on wn); [| done].
  by case_bool_decide.
Qed.

Lemma conflicts_cons ov on w wn ln :
  conflicts ov on w (wn :: ln) =
    (if decide (String.get ov w = String.get on wn) then 0 else 1)
    + conflicts ov on w ln.
Proof.
  unfold conflicts. rewrite filter_cons.
  destruct (decide (String.get ov w = String.get on wn)) as [Heq | Hne].
  - by rewrite decide_False by by intros ?.
  - by rewrite decide_True by done.
Qed.

Lemma count_loop_spec w ov on ln :
  ∀ acc s, ∃ r,
    for_in ln (count_body w ov on) acc s = (r, s) ∧ r ≠ NoFuel ∧
    (∀ c, r = Val c → c = acc + conflicts ov on w ln) ∧
    (ov < String.length w → (∀ wn, wn ∈ ln → on < String.length wn) →
     ∃ c, r = Val c).
Proof.
  induction ln as [| wn ln IH]; intros acc s; cbn [for_in].
  { exists (Val acc). repeat split; [done | | by eexists].
    intros c [= <-]. unfold conflicts. simpl. lia. }
  unfold bind. rewrite count_body_eq.
  destruct (String.get ov w) as [cx |] eqn:Hcx.
  2: { exists (Exn IndexError). repeat split; [done.. |].
       intros Hov%string_get_Some. rewrite Hcx in Hov. by destruct Hov. }
  destruct (String.get on wn) as [cy |] eqn:Hcy.
  2: { exists (Exn IndexError). repeat split; [done.. |].
       intros _ Hall. destruct (string_get_Some wn on) as [? Hs];
         [apply Hall, list_elem_of_here | congruence]. }
  rewrite conflicts_cons, Hcx, Hcy.
  destruct (decide (cx = cy)) as [-> | Hne].
  - rewrite bool_decide_eq_true_2 by done. rewrite decide_True by done.
    destruct (IH acc s) as (r & -> & Hnf & Hval & Hret).
    exists r. repeat split; [done | |].
    + intros c Hc. rewrite (Hval c Hc). lia.
    + intros Hov Hall. apply Hret; [done |].
      intros wn' ?. by apply Hall, list_elem_of_further.
  - rewrite bool_decide_eq_false_2 by done.
    rewrite decide_False by congruence.
    destruct (IH (S acc) s) as (r & -> & Hnf & Hval & Hret).
    exists r. repeat split; [done | |].
    + intros c Hc. rewrite (Hval c Hc). lia.
    + intros Hov Hall. apply Hret; [done |].
      intros wn' ?. by apply Hall, list_elem_of_further.
Qed.

Lemma neighbor_loop_spec a var w s ns :
  ∀ acc, ∃ r,
    for_in ns (neighbor_count_body cw a var w) acc s = (r, s) ∧ r ≠ NoFuel ∧
    (∀ c, r = Val c →
       c = acc + sum_list (map (neighbor_conflicts cw a s var w) ns)) ∧
    ((∀ n, n ∈ ns → neighbor_ready cw a s var w n) → ∃ c, r = Val c).
Proof.
  induction ns as [| n ns IH]; intros acc; cbn [for_in].
  { exists (Val acc). repeat split; [done | | by eexists].
    intros c [= <-]. simpl. lia. }
  assert (∃ r1,
            neighbor_count_body cw a var w n acc s = (r1, s) ∧ r1 ≠ NoFuel ∧
            (∀ c, r1 = Val c → c = acc + neighbor_conflicts cw a s var w n) ∧
            (neighbor_ready cw a s var w n → ∃ c, r1 = Val c)) as Hbody.
  { unfold neighbor_count_body, neighbor_conflicts, neighbor_ready.
    destruct (overlaps cw var n) as [[ov on] |].
    2: { exists (Exn TypeError). repeat split; [done.. |].
         by intros (? & ? & ? & _). }
    destruct (in_assignment n a).
    { exists (Val acc). repeat split; [done | | by eexists].
      intros c [= <-]. lia. }
    unfold bind, get_domain. destruct (s !! n) as [ln |].
    2: { exists (Exn KeyError). repeat split; [done.. |].
         intros (? & ? & _ & [? | (? & ? & _)]); done. }
    destruct (count_loop_spec w ov on ln acc s) as (r & -> & Hnf & Hval & Hret).
    exists r. repeat split; [done | done |].
    intros (? & ? & [= <- <-] & [? | (? & [= <-] & ? & ?)]); [done |].
    by apply Hret. }
  destruct Hbody as (r1 & Hb & Hnf1 & Hval1 & Hret1).
  unfold bind. rewrite Hb.
  destruct r1 as [c1 | e |]; [| | done].
  - destruct (IH c1) as (r & -> & Hnf & Hval & Hret).
    exists r. repeat split; [done | |].
    + intros c Hc. rewrite (Hval c Hc), (Hval1 c1 eq_refl). simpl. lia.
    + intros Hall. apply Hret. intros n' ?. by apply Hall, list_elem_of_further.
  - exists (Exn e). repeat split; [done.. |].
    intros Hall. destruct Hret1 as [? ?]; [apply Hall, list_elem_of_here | done].
Qed.

Lemma rules_out_loop_spec a var s l :
  ∀ d, ∃ r,
    for_in l (rules_out_body cw a var) d s = (r, s) ∧ r ≠ NoFuel ∧
    (∀ d', r = Val d' → d' = fill_dict (ruled_out cw a s var) d l) ∧
    ((∀ w n, w ∈ l → n ∈ neighbors cw var → neighbor_ready cw a s var w n) →
     ∃ d', r = Val d').
Proof.
  induction l as [| w l IH]; intros d; cbn [for_in].
  { exists (Val d). repeat split; [done | | by eexists]. by intros d' [= <-]. }
  unfold bind, rules_out_body at 1. unfold bind.
  destruct (neighbor_loop_spec a var w s (neighbors cw var) 0)
    as (r1 & -> & Hnf1 & Hval1 & Hret1).
  destruct r1 as [c1 | e |]; [| | done].
  - unfold ret.
    destruct (IH (dict_set d w c1)) as (r & -> & Hnf & Hval & Hret).
    exists r. repeat split; [done | |].
    + intros d' Hd'. rewrite (Hval d' Hd'). simpl.
      pose proof (Hval1 c1 eq_refl) as Hc1. simpl in Hc1.
      by rewrite ruled_out_sum, <- Hc1.
    + intros Hall. apply Hret. intros w' n ?. by apply Hall, list_elem_of_further.
  - exists (Exn e). repeat split; [done.. |].
    intros Hall. destruct Hret1 as [? ?]; [| done].
    intros n ?. by apply Hall; [apply list_elem_of_here |].
Qed.

Lemma order_domain_values_spec var a s l :
  s !! var = Some l →
  ∃ r, for_in l (rules_out_body cw a var) [] s = (r, s) ∧
       order_domain_values cw var a s =
         (match r with
          | Val d => Val (sorted_keys d)
          | Exn e => Exn e
          | NoFuel => NoFuel
          end, s) ∧
       (∀ d, r = Val d → d = fill_dict (ruled_out cw a s var) [] l) ∧
       ((∀ w n, w ∈ l → n ∈ neighbors cw var →
           neighbor_ready cw a s var w n) → ∃ d, r = Val d).
Proof.
  intros Hl. unfold order_domain_values, bind, get_domain. rewrite Hl.
  destruct (rules_out_loop_spec a var s l []) as (r & -> & Hnf & Hval & Hret).
  exists r. split; [done |]. split; [by destruct r |]. done.
Qed.

End OrderDomainValues.

(** X15: when [order_domain_values] returns, it has left the domains as they
    were and its result lists every word of the domain of [var] exactly
    once, in ascending order of the number of values the word rules out in
    the domains of the unassigned neighbors of [var]. *)
Theorem order_domain_values_sorted (cw : Crossword) (var : variable)
    (a : assignment) (s s' : domains) (l r : list string) :
  s !! var = Some l →
  order_domain_values cw var a s = (Val r, s') →
  s' = s ∧ NoDup r ∧ (∀ w, w ∈ r ↔ w ∈ l) ∧
  StronglySorted
    (fun w1 w2 => ruled_out cw a s var w1 ≤ ruled_out cw a s var w2) r.
Proof.
  intros Hl Hodv.
  destruct (order_domain_values_spec cw var a s l Hl)
    as (rd & _ & Heq & Hval & _).
  rewrite Heq in Hodv. destruct rd as [d | |]; [| done..].
  injection Hodv as <- <-. rewrite (Hval d eq_refl).
  set (f := ruled_out cw a s var).
  destruct (fill_dict_keys f l []) as [Hnd Hin]; [constructor |].
  assert (sorted_keys (fill_dict f [] l) ≡ₚ map fst (fill_dict f [] l)) as Hperm
    by (unfold sorted_keys; by rewrite sort_by_count_perm).
  split; [done |]. split; [by rewrite Hperm |]. split.
  - intros w. rewrite Hperm, Hin. simpl. rewrite elem_of_nil. tauto.
  - apply sorted_keys_sorted. by apply fill_dict_values.
Qed.

Lemma order_domain_values_sorted_witness :
  let P := crossing across2 down2
             ["AB"%string; "CD"%string; "AC"%string; "CE"%string; "CF"%string] in
  let r := ["CD"%string; "CE"%string; "CF"%string; "AB"%string; "AC"%string] in
  order_domain_values P across2 [] (init_domains P) = (Val r, init_domains P) ∧
  NoDup r ∧
  StronglySorted
    (fun w1 w2 => ruled_out P [] (init_domains P) across2 w1
                  ≤ ruled_out P [] (init_domains P) across2 w2) r.
Proof.
  intros P r.
  assert (init_domains P !! across2 =
          Some ["AB"%string; "CD"%string; "AC"%string; "CE"%string; "CF"%string])
    as Hl by (vm_compute; reflexivity).
  assert (order_domain_values P across2 [] (init_domains P) =
          (Val r, init_domains P)) as Hodv by (vm_compute; reflexivity).
  split; [exact Hodv |].
  destruct (order_domain_values_sorted P across2 [] _ _ _ _ Hl Hodv)
    as (_ & Hnd & _ & Hsorted).
  split; [exact Hnd | exact Hsorted].
Defined.

(** X16: [order_domain_values] returns, without raising, when [var] has a
    domain and each neighbor of [var] has a defined overlap with it and is
    either assigned or has a domain, the overlap offsets lying within the
    words compared. *)
Theorem order_domain_values_returns (cw : Crossword) (var : variable)
    (a : assignment) (s : domains) (l : list string) :
  s !! var = Some l →
  (∀ w n, w ∈ l → n ∈ neighbors cw var → neighbor_ready cw a s var w n) →
  ∃ r, order_domain_values cw var a s = (Val r, s).
Proof.
  intros Hl Hready.
  destruct (order_domain_values_spec cw var a s l Hl)
    as (rd & _ & -> & _ & Hret).
  destruct (Hret Hready) as [d ->]. by eexists.
Qed.

Lemma order_domain_values_returns_witness :
  let P := crossing across2 down2 ["AB"%string; "CD"%string] in
  ∃ r, order_domain_values P across2 [] (init_domains P) =
         (Val r, init_domains P).
Proof.
  intros P.
  apply (order_domain_values_returns P across2 [] (init_domains P)
           ["AB"%string; "CD"%string]).
  - vm_compute. reflexivity.
  - intros w n Hw Hn.
    assert (n = down2) as ->.
    { vm_compute in Hn. by apply list_elem_of_singleton in Hn. }
    exists 0, 0. split; [reflexivity |]. right.
    exists ["AB"%string; "CD"%string]. split; [vm_compute; reflexivity |].
    assert (∀ u, u ∈ ["AB"%string; "CD"%string] → 0 < String.length u) as Hlen.
    { intros u [-> | ->%list_elem_of_singleton]%elem_of_cons; simpl; lia. }
    split; [by apply Hlen | exact Hlen].
Defined.

(** X17: assigned neighbors are left out of the count: when every neighbor of
    [var] is assigned (or [var] has no neighbor), every word counts zero and
    [order_domain_values] returns the domain of [var], if it holds no word
    twice, in its own order. *)
Theorem order_domain_values_assigned_neighbors (cw : Crossword)
    (var : variable) (a : assignment) (s : domains) (l : list string) :
  s !! var = Some l → NoDup l →
  (∀ n, n ∈ neighbors cw var →
        in_assignment n a = true ∧ is_Some (overlaps cw var n)) →
  order_domain_values cw var a s = (Val l, s).
Proof.
  intros Hl Hnd Hass.
  destruct (order_domain_values_spec cw var a s l Hl)
    as (rd & _ & -> & Hval & Hret).
  destruct Hret as [d ->].
  { intros w n _ Hn. destruct (Hass n Hn) as [Hin [[ov on] Hov]].
    exists ov, on. split; [done | by left]. }
  rewrite (Hval d eq_refl).
  rewrite fill_dict_fresh; [| done | intros k _; apply not_elem_of_nil].
  assert (∀ w, ruled_out cw a s var w = 0) as Hzero.
  { intros w. rewrite ruled_out_sum.
    induction (neighbors cw var) as [| n ns IH]; simpl; [done |].
    rewrite IH by (intros n' ?; by apply Hass, list_elem_of_further).
    unfold neighbor_conflicts.
    destruct (Hass n) as [-> _]; [apply list_elem_of_here |].
    by destruct (overlaps cw var n) as [[] |]. }
  assert (map (fun w => (w, ruled_out cw a s var w)) l =
          map (fun w => (w, 0)) l) as ->
    by (apply map_ext; intros; by rewrite Hzero).
  unfold sorted_keys. simpl. rewrite sort_by_count_id.
  - rewrite map_map. simpl. by rewrite map_id.
  - clear. induction l as [| w l IH]; simpl; constructor; [done |].
    apply Forall_forall. intros e (w' & -> & _)%list_elem_of_fmap.
    simpl. lia.
Qed.

Lemma order_domain_values_assigned_neighbors_witness :
  let P := crossing across2 down2 ["AB"%string; "CD"%string; "AC"%string] in
  order_domain_values P across2 [(down2, Some "CD"%string)] (init_domains P) =
    (Val ["AB"%string; "CD"%string; "AC"%string], init_domains P).
Proof.
  intros P.
  apply (order_domain_values_assigned_neighbors P across2
           [(down2, Some "CD"%string)] (init_domains P)).
  - vm_compute. reflexivity.
  - apply (bool_decide_unpack _). vm_compute. reflexivity.
  - intros n Hn.
    assert (n = down2) as ->.
    { vm_compute in Hn. by apply list_elem_of_singleton in Hn. }
    split; [vm_compute; reflexivity | eexists; reflexivity].
Defined.

(** ** letter_grid *)

Lemma grid_set_val g i j c g' :
  grid_set g i j c = Val g' →
  ∃ row, g !! i = Some row ∧ j < length row ∧
         g' = <[i := <[j := Some c]> row]> g.
Proof.
  unfold grid_set. destruct (g !! i) as [row |] eqn:Hrow; [| done].
  destruct (decide (j < length row)); [| done].
  intros [= <-]. by exists row.
Qed.

Lemma grid_set_cell_eq g i j c g' :
  grid_set g i j c = Val g' → cell g' i j = Some (Some c).
Proof.
  intros (row & Hrow & Hj & ->)%grid_set_val. unfold cell.
  rewrite list_lookup_insert_eq by by eapply lookup_lt_Some.
  by rewrite list_lookup_insert_eq.
Qed.

Lemma grid_set_cell_ne g i j c g' i' j' :
  grid_set g i j c = Val g' → ¬ (i' = i ∧ j' = j) →
  cell g' i' j' = cell g i' j'.
Proof.
  intros (row & Hrow & Hj & ->)%grid_set_val Hne. unfold cell.
  destruct (decide (i' = i)) as [-> | Hi].
  - rewrite list_lookup_insert_eq by by eapply lookup_lt_Some.
    rewrite Hrow. apply list_lookup_insert_ne. naive_solver.
  - by rewrite list_lookup_insert_ne.
Qed.

Lemma grid_set_dims h w g i j c g' :
  grid_dims h w g → grid_set g i j c = Val g' → grid_dims h w g'.
Proof.
  intros [Hlen Hrows] (row & Hrow & Hj & ->)%grid_set_val. split.
  - by rewrite length_insert.
  - apply Forall_insert; [done |]. rewrite length_insert.
    rewrite Forall_forall in Hrows. apply Hrows.
    apply list_elem_of_lookup. eauto.
Qed.

Lemma grid_set_returns h w g i j c :
  grid_dims h w g →
  (i < h ∧ j < w) ↔ ∃ g', grid_set g i j c = Val g'.
Proof.
  intros [Hlen Hrows]. unfold grid_set. split.
  - intros [Hi Hj]. destruct (lookup_lt_is_Some_2 g i) as [row Hrow]; [lia |].
    rewrite Hrow. rewrite Forall_forall in Hrows.
    rewrite decide_True; [by eexists |].
    rewrite (Hrows row); [done |]. apply list_elem_of_lookup. eauto.
  - intros [g' Hg']. destruct (g !! i) as [row |] eqn:Hrow; [| done].
    destruct (decide (j < length row)) as [Hj |]; [| done].
    rewrite Forall_forall in Hrows.
    rewrite (Hrows row) in Hj by (apply list_elem_of_lookup; eauto).
    apply lookup_lt_Some in Hrow. lia.
Qed.

Lemma cell_injective v k k' :
  cell_row v k = cell_row v k' → cell_col v k = cell_col v k' → k = k'.
Proof. unfold cell_row, cell_col. destruct (var_direction v); lia. Qed.

Lemma cell_blank h w i j :
  i < h → j < w → cell (replicate h (replicate w None)) i j = Some None.
Proof.
  intros Hi Hj. unfold cell.
  rewrite lookup_replicate_2 by done. by rewrite lookup_replicate_2.
Qed.

Lemma blank_dims h w : grid_dims h w (replicate h (replicate w None)).
Proof.
  split; [apply length_replicate |].
  apply Forall_replicate, length_replicate.
Qed.

(** The loop over the letters of one word. *)
Lemma letter_loop_spec v word ks :
  ∀ g g',
    letter_loop v (Some word) ks g = Val g' →
    ∀ i j,
      (cell g' i j = cell g i j ∧
       ∀ k, k ∈ ks → ¬ (i = cell_row v k ∧ j = cell_col v k)) ∨
      (∃ k c, k ∈ ks ∧ i = cell_row v k ∧ j = cell_col v k ∧
              String.get k word = Some c ∧ cell g' i j = Some (Some c)).
Proof.
  induction ks as [| k ks IH]; intros g g'; simpl.
  { intros [= <-] i j. left. split; [done |].
    intros k Hk. by apply elem_of_nil in Hk. }
  unfold str_index.
  destruct (String.get k word) as [c |] eqn:Hc; simpl; [| done].
  destruct (grid_set g (cell_row v k) (cell_col v k) c) as [g1 | |] eqn:Hset;
    simpl; [| done..].
  intros Hloop i j.
  destruct (IH g1 g' Hloop i j) as [[Heq Hnone] | (k' & c' & Hk' & ? & ? & ? & ?)].
  - destruct (decide (i = cell_row v k ∧ j = cell_col v k)) as [[-> ->] | Hne].
    + right. exists k, c. rewrite Heq.
      repeat split; [apply list_elem_of_here | done |].
      by eapply grid_set_cell_eq.
    + left. split.
      * rewrite Heq. by eapply grid_set_cell_ne.
      * intros k' [-> | Hk']%elem_of_cons; [done | by apply Hnone].
  - right. exists k', c'. repeat split; [by apply list_elem_of_further | done..].
Qed.

Lemma letter_loop_dims h w v word ks :
  ∀ g g', grid_dims h w g → letter_loop v word ks g = Val g' → grid_dims h w g'.
Proof.
  induction ks as [| k ks IH]; intros g g' Hd; simpl; [by intros [= <-] |].
  destruct (py_index word k) as [c | |]; simpl; [| done..].
  destruct (grid_set g (cell_row v k) (cell_col v k) c) as [g1 | |] eqn:Hset;
    simpl; [| done..].
  apply IH. by eapply grid_set_dims.
Qed.

Lemma letter_loop_returns h w v word ks :
  ∀ g, grid_dims h w g → (∀ k, k ∈ ks → k < String.length word) →
    (∀ k, k ∈ ks → cell_row v k < h ∧ cell_col v k < w) ↔
    ∃ g', letter_loop v (Some word) ks g = Val g'.
Proof.
  induction ks as [| k ks IH]; intros g Hd Hks; simpl.
  { split; [by eexists |]. intros _ k Hk. by apply elem_of_nil in Hk. }
  destruct (string_get_Some word k) as [c Hc]; [apply Hks, list_elem_of_here |].
  unfold str_index. rewrite Hc. simpl.
  pose proof (grid_set_returns h w g (cell_row v k) (cell_col v k) c Hd) as Hset.
  destruct (grid_set g (cell_row v k) (cell_col v k) c) as [g1 | e |] eqn:Hg1;
    simpl.
  - rewrite <- (IH g1);
      [| by eapply grid_set_dims
       | intros k' ?; by apply Hks, list_elem_of_further].
    split.
    + intros Hall k' ?. by apply Hall, list_elem_of_further.
    + intros Hall k' [-> | ?]%elem_of_cons; [| by apply Hall].
      apply Hset. by eexists.
  - split; [| by intros [? ?]].
    intros Hall. destruct (proj1 Hset) as [? ?]; [| done].
    apply Hall, list_elem_of_here.
  - split; [| by intros [? ?]].
    intros Hall. destruct (proj1 Hset) as [? ?]; [| done].
    apply Hall, list_elem_of_here.
Qed.

Lemma writes_seq v word k i j :
  writes v word k i j ↔
  k ∈ seq 0 (String.length word) ∧ i = cell_row v k ∧ j = cell_col v k.
Proof. unfold writes. rewrite elem_of_seq. intuition lia. Qed.

(** The loop over the entries of the assignment. *)
Lemma letter_entries_spec a :
  ∀ g g',
    letter_entries a g = Val g' →
    ∀ i j,
      (cell g' i j = cell g i j ∧
       ∀ v word k, (v, Some word) ∈ a → ¬ writes v word k i j) ∨
      (∃ v word k c, (v, Some word) ∈ a ∧ writes v word k i j ∧
                     String.get k word = Some c ∧
                     cell g' i j = Some (Some c)).
Proof.
  induction a as [| [v [word |]] a IH]; intros g g'; simpl; [| | done].
  { intros [= <-] i j. left. split; [done |].
    intros v word k Hin. by apply elem_of_nil in Hin. }
  destruct (letter_loop v (Some word) (seq 0 (String.length word)) g)
    as [g1 | |] eqn:Hloop; simpl; [| done..].
  intros Hrest i j.
  destruct (IH g1 g' Hrest i j)
    as [[Heq Hnone] | (v' & word' & k' & c' & Hin & ? & ? & ?)].
  - destruct (letter_loop_spec v word _ g g1 Hloop i j)
      as [[Heq1 Hnone1] | (k & c & Hk & Hi & Hj & Hc & Hcell)].
    + left. split; [by rewrite Heq |].
      intros v' word' k' [[= -> ->] | Hin]%elem_of_cons.
      * rewrite writes_seq. intros (? & ? & ?). by eapply Hnone1.
      * by apply Hnone.
    + right. exists v, word, k, c. rewrite Heq.
      split; [apply list_elem_of_here |].
      split; [by apply writes_seq | done].
  - right. exists v', word', k', c'.
    split; [by apply list_elem_of_further | done].
Qed.

Lemma letter_entries_dims h w a :
  ∀ g g', grid_dims h w g → letter_entries a g = Val g' → grid_dims h w g'.
Proof.
  induction a as [| [v word] a IH]; intros g g' Hd; simpl; [by intros [= <-] |].
  destruct (py_len word) as [n | |]; simpl; [| done..].
  destruct (letter_loop v word (seq 0 n) g) as [g1 | |] eqn:Hloop;
    simpl; [| done..].
  apply IH. by eapply letter_loop_dims.
Qed.

Lemma letter_entries_returns h w a :
  ∀ g, grid_dims h w g →
    (∀ v word, (v, word) ∈ a → ∃ wd, word = Some wd ∧ fits h w v wd) ↔
    ∃ g', letter_entries a g = Val g'.
Proof.
  induction a as [| [v word] a IH]; intros g Hd; simpl.
  { split; [by eexists |]. intros _ v word Hin. by apply elem_of_nil in Hin. }
  destruct word as [wd |]; simpl.
  2: { split; [| by intros [? ?]].
       intros Hall. destruct (Hall v None) as (? & ? & _);
         [apply list_elem_of_here | done]. }
  pose proof (letter_loop_returns h w v wd (seq 0 (String.length wd)) g Hd)
    as Hloop.
  assert ((∀ k, k ∈ seq 0 (String.length wd) →
             cell_row v k < h ∧ cell_col v k < w) ↔ fits h w v wd) as Hfits.
  { unfold fits. split; intros H k Hk; apply H; apply elem_of_seq in Hk || apply elem_of_seq; lia. }
  rewrite Hfits in Hloop.
  specialize (Hloop ltac:(intros k Hk; apply elem_of_seq in Hk; lia)).
  destruct (letter_loop v (Some wd) (seq 0 (String.length wd)) g)
    as [g1 | e |] eqn:Hg1; simpl.
  - rewrite <- (IH g1) by by eapply letter_loop_dims.
    split.
    + intros Hall v' word' ?. by apply Hall, list_elem_of_further.
    + intros Hall v' word' [[= -> ->] | ?]%elem_of_cons; [| by apply Hall].
      exists wd. split; [done |]. apply Hloop. by eexists.
  - split; [| by intros [? ?]]. intros Hall.
    destruct (Hall v (Some wd)) as (wd' & [= <-] & Hf); [apply list_elem_of_here |].
    by destruct (proj1 Hloop Hf).
  - split; [| by intros [? ?]]. intros Hall.
    destruct (Hall v (Some wd)) as (wd' & [= <-] & Hf); [apply list_elem_of_here |].
    by destruct (proj1 Hloop Hf).
Qed.

Lemma letter_entries_app a b :
  ∀ g, letter_entries (a ++ b) g =
       (g1 <~ letter_entries a g ;; letter_entries b g1).
Proof.
  induction a as [| [v word] a IH]; intros g; simpl; [done |].
  destruct (py_len word) as [n | |]; simpl; [| done..].
  destruct (letter_loop v word (seq 0 n) g) as [g1 | |]; simpl; [| done..].
  apply IH.
Qed.

(** X18: the grid [letter_grid] returns has [height] rows of [width] cells. *)
Theorem letter_grid_dims (height width : nat) (a : assignment) (g : grid) :
  letter_grid height width a = Val g →
  length g = height ∧ Forall (fun row => length row = width) g.
Proof.
  intros Hg. eapply (letter_entries_dims height width); [| exact Hg].
  apply blank_dims.
Qed.

Lemma letter_grid_dims_witness :
  let g := [[Some "A"%char; Some "B"%char; None];
            [Some "X"%char; None; None];
            [Some "Y"%char; None; None]] in
  letter_grid 3 3 [(across2, Some "AB"%string); (down2, Some "AXY"%string)]
    = Val g ∧
  length g = 3 ∧ Forall (fun row => length row = 3) g.
Proof.
  intros g.
  assert (letter_grid 3 3
            [(across2, Some "AB"%string); (down2, Some "AXY"%string)] = Val g)
    as Hg by reflexivity.
  split; [exact Hg |]. exact (letter_grid_dims 3 3 _ g Hg).
Defined.

(** X19: [letter_grid] returns a grid exactly when every entry of the
    assignment holds a word (not [None]) all of whose letters, laid from the
    start of the slot in its direction, fall inside the grid; the length of
    the variable plays no part.  Otherwise it raises. *)
Theorem letter_grid_returns_iff (height width : nat) (a : assignment) :
  (∃ g, letter_grid height width a = Val g) ↔
  ∀ v word, (v, word) ∈ a → ∃ wd, word = Some wd ∧ fits height width v wd.
Proof.
  symmetry. apply letter_entries_returns, blank_dims.
Qed.

(** X20: in the grid [letter_grid] returns, a cell inside the grid is blank
    exactly when no assigned word covers it, and otherwise holds a letter
    that some assigned word has at that cell. *)
Theorem letter_grid_cells (height width : nat) (a : assignment) (g : grid)
    (i j : nat) :
  letter_grid height width a = Val g → i < height → j < width →
  (cell g i j = Some None ∧
   ∀ v word k, (v, Some word) ∈ a → ¬ writes v word k i j) ∨
  (∃ v word k c, (v, Some word) ∈ a ∧ writes v word k i j ∧
                 String.get k word = Some c ∧ cell g i j = Some (Some c)).
Proof.
  intros Hg Hi Hj.
  destruct (letter_entries_spec a _ g Hg i j) as [[Heq Hnone] | Hsome];
    [left | by right].
  split; [| done]. by rewrite Heq, cell_blank.
Qed.

Lemma letter_grid_cells_witness :
  let a := [(across2, Some "AB"%string); (down2, Some "AXY"%string)] in
  ∃ g, letter_grid 3 3 a = Val g ∧
    ((cell g 1 1 = Some None ∧
      ∀ v word k, (v, Some word) ∈ a → ¬ writes v word k 1 1) ∨
     (∃ v word k c, (v, Some word) ∈ a ∧ writes v word k 1 1 ∧
                    String.get k word = Some c ∧ cell g 1 1 = Some (Some c))).
Proof.
  intros a. eexists. split; [reflexivity |].
  apply (letter_grid_cells 3 3 a); [reflexivity | lia | lia].
Defined.

(** X21: a later entry overwrites an earlier one: in the grid returned for an
    assignment, every cell of the slot of the last entry holds the letter of
    the last entry's word. *)
Theorem letter_grid_last_entry (height width : nat) (a : assignment)
    (v : variable) (word : string) (g : grid) (k i j : nat) :
  letter_grid height width (a ++ [(v, Some word)]) = Val g →
  writes v word k i j →
  cell g i j = Some (String.get k word).
Proof.
  unfold letter_grid. rewrite letter_entries_app.
  destruct (letter_entries a _) as [g1 | |]; simpl; [| done..].
  destruct (letter_loop v (Some word) (seq 0 (String.length word)) g1)
    as [g2 | |] eqn:Hloop; simpl; [| done..].
  intros [= <-] Hw. apply writes_seq in Hw as (Hk & -> & ->).
  destruct (letter_loop_spec v word _ g1 g2 Hloop (cell_row v k) (cell_col v k))
    as [[_ Hnone] | (k' & c & Hk' & Hi & Hj & Hc & Hcell)].
  - by destruct (Hnone k Hk).
  - pose proof (cell_injective v k k' Hi Hj) as ->. by rewrite Hc.
Qed.

Lemma letter_grid_last_entry_witness :
  ∃ g, letter_grid 3 3
         ([(across2, Some "AB"%string)] ++ [(down2, Some "XYZ"%string)]) = Val g ∧
       cell g 0 0 = Some (Some "X"%char).
Proof.
  eexists. split; [reflexivity |].
  apply (letter_grid_last_entry 3 3 [(across2, Some "AB"%string)] down2
           "XYZ"%string _ 0 0 0); [reflexivity |].
  repeat split. simpl. lia.
Defined.
